(** * In-memory CRM repository ([MemStorage], storage.ts)

    A shallow embedding of the storage layer of the contact-management
    backend: the three insertion-ordered [Map]s of [MemStorage], its query
    and mutation methods, and the dashboard metrics.

    Conventions of the embedding
    - a JavaScript [Map<string, V>] is an association list in insertion
      order (the order [Map.prototype.values] iterates in);
    - a [Date] is its [getTime()] value, a [Z] of milliseconds;
    - [randomUUID()] and [new Date()] are inputs of the operation that
      calls them ([id] and [now]);
    - a string is well-formed text held as its UTF-8 bytes; [includes],
      [===] and truthiness give on these bytes what they give on the
      UTF-16 code units of the string;
    - [String.prototype.toLowerCase] follows the Unicode tables of the
      engine: it is an input of the model (a [Casing]), of which only the
      action on ASCII text is written out, and assumed only where a
      statement says so;
    - the numbers of [getMetrics] that are array lengths are [Z]; the
      conversion rate is an IEEE-754 binary64 value ([spec_float]);
    - every method is [async] only by signature: it runs to completion, so
      a method is a function from the state to a result and a new state. *)

From Stdlib Require Import List Bool ZArith Lia String Ascii.
From Stdlib Require Import Permutation Sorted QArith Qround DecimalString.
From Stdlib Require Import Floats.SpecFloat.
From Stdlib Require Import Reals Lra.
Import ListNotations.

Local Open Scope string_scope.
Local Open Scope Z_scope.

(** ** JavaScript values and built-ins used by the repository *)

Module JS.

(** A property that may be missing from an object ([undefined]). *)
Definition optional (A : Type) := option A.
(** A value that may be [null]. *)
Definition nullable (A : Type) := option A.

(** Truthiness of a string: every string but the empty one. *)
Definition truthy (s : string) : bool :=
  match s with
  | EmptyString => false
  | String _ _ => true
  end.

(** [x || null] for an optional, nullable string: [undefined], [null]
    and the empty string all give [null]. *)
Definition or_null (x : optional (nullable string)) : nullable string :=
  match x with
  | Some (Some s) => if truthy s then Some s else None
  | _ => None
  end.

(** [x || null] for an optional, nullable [Date] (an object is truthy). *)
Definition or_null_date (x : optional (nullable Z)) : nullable Z :=
  match x with
  | Some (Some d) => Some d
  | _ => None
  end.

(** [a === b] where [a] may be [null] or [undefined] and [b] is a string. *)
Definition strict_eq (a : option string) (b : string) : bool :=
  match a with
  | Some s => String.eqb s b
  | None => false
  end.

(** [String.prototype.toLowerCase], as the engine provides it. *)
Class Casing := mkCasing {
  toLowerCase : string -> string
}.

(** What [toLowerCase] does on ASCII text: the letters A to Z go to a to z
    and every other character stays. *)
Definition lower_ascii (c : ascii) : ascii :=
  let n := nat_of_ascii c in
  if (Nat.leb 65 n && Nat.leb n 90)%bool then ascii_of_nat (n + 32) else c.

Fixpoint ascii_toLowerCase (s : string) : string :=
  match s with
  | EmptyString => EmptyString
  | String c s' => String (lower_ascii c) (ascii_toLowerCase s')
  end.

(** Text of ASCII characters only. *)
Fixpoint is_ascii (s : string) : bool :=
  match s with
  | EmptyString => true
  | String c s' => (Nat.ltb (nat_of_ascii c) 128 && is_ascii s')%bool
  end.

(** An engine lower-cases ASCII text as above; every conforming
    [toLowerCase] does. *)
Definition lowers_ascii (lc : Casing) : Prop :=
  forall s, is_ascii s = true -> toLowerCase s = ascii_toLowerCase s.

(** The casing that changes the letters A to Z and nothing else, for
    sample data in ASCII. *)
Definition asciiCasing : Casing := {| toLowerCase := ascii_toLowerCase |}.

(** [s.includes(sub)]: [sub] occurs in [s] at some position. *)
Fixpoint includes (s sub : string) : bool :=
  (String.prefix sub s ||
   match s with
   | EmptyString => false
   | String _ s' => includes s' sub
   end)%bool.

(** *** [Map<string, V>], in insertion order *)

Definition Map (V : Type) := list (string * V).

Definition Map_empty {V} : Map V := [].

Definition Map_get {V} (k : string) (m : Map V) : option V :=
  match find (fun p => String.eqb (fst p) k) m with
  | Some p => Some (snd p)
  | None => None
  end.

Definition Map_has {V} (k : string) (m : Map V) : bool :=
  existsb (fun p => String.eqb (fst p) k) m.

(** [m.set(k, v)]: an existing key keeps its place, a new one is
    appended. *)
Fixpoint Map_set {V} (k : string) (v : V) (m : Map V) : Map V :=
  match m with
  | [] => [(k, v)]
  | (k', v') :: m' =>
      if String.eqb k' k then (k, v) :: m' else (k', v') :: Map_set k v m'
  end.

(** [m.delete(k)]: the map without [k], and whether [k] was there. *)
Definition Map_remove {V} (k : string) (m : Map V) : Map V :=
  filter (fun p => negb (String.eqb (fst p) k)) m.

Definition Map_delete {V} (k : string) (m : Map V) : bool * Map V :=
  (Map_has k m, Map_remove k m).

Definition Map_values {V} (m : Map V) : list V := map snd m.
Definition Map_entries {V} (m : Map V) : list (string * V) := m.
Definition Map_keys {V} (m : Map V) : list string := map fst m.

(** The keys of a [Map] are pairwise distinct. *)
Definition Map_wf {V} (m : Map V) : Prop := NoDup (Map_keys m).

(** *** [Array.prototype.sort(cmp)]

    The sort is stable (ECMAScript 2019): with a consistent comparator
    its result is the stable insertion sort below, whatever algorithm an
    engine runs. [cmp a b > 0] puts [a] after [b]. *)

Fixpoint sort_insert {A} (cmp : A -> A -> Z) (x : A) (l : list A) : list A :=
  match l with
  | [] => [x]
  | y :: l' =>
      if 0 <? cmp x y then y :: sort_insert cmp x l' else x :: y :: l'
  end.

Definition Array_sort {A} (cmp : A -> A -> Z) (l : list A) : list A :=
  fold_right (sort_insert cmp) [] l.

(** *** Numbers: IEEE-754 binary64 *)

Definition prec : Z := 53.
Definition emax : Z := 1024.

Definition number := spec_float.

(** The double nearest to an integer (exact below [2^53]). *)
Definition of_Z (z : Z) : number := binary_normalize prec emax z 0 false.

Definition num_mul (x y : number) : number := SFmul prec emax x y.
Definition num_div (x y : number) : number := SFdiv prec emax x y.

(** [Math.round(x)]: the integer nearest to [x], a tie going up;
    [floor(x + 1/2)] computed exactly on the mantissa. An integral [x],
    an infinity and [NaN] are returned as they are; a negative [x] that
    rounds to zero gives [-0]. *)
Definition Math_round (x : number) : number :=
  match x with
  | S754_finite s m e =>
      if 0 <=? e then x
      else
        let v := if s then Z.opp (Z.pos m) else Z.pos m in
        let k := Z.shiftr (2 * v + Z.shiftl 1 (Z.opp e)) (Z.opp e + 1) in
        if k =? 0 then S754_zero s else of_Z k
  | _ => x
  end.

End JS.

(** ** The entities (schema.ts) *)

Module Schema.
Import JS.

(** [User = typeof users.$inferSelect]. *)
Record User := mkUser {
  user_id : string;
  username : string;
  password : string
}.

(** [InsertUser]: [username] and [password] picked. *)
Record InsertUser := mkInsertUser {
  iu_username : string;
  iu_password : string
}.

(** [Contact = typeof contacts.$inferSelect]. The nullable columns are
    [null] or a string. [status] is declared [string]; it is [optional]
    here because [createContact] builds the record from an input in which
    [status] may be missing, leaving the property [undefined]. *)
Record Contact := mkContact {
  id : string;
  name : string;
  email : string;
  phone : nullable string;
  company : nullable string;
  title : nullable string;
  status : optional string;
  notes : nullable string;
  createdAt : Z;
  updatedAt : Z
}.

(** [InsertContact]: the insert schema of [contacts] without [id],
    [createdAt], [updatedAt]. [name] and [email] are required; the
    nullable columns may be omitted, [null] or a string; [status], a
    column with a default, may be omitted. *)
Record InsertContact := mkInsertContact {
  ic_name : string;
  ic_email : string;
  ic_phone : optional (nullable string);
  ic_company : optional (nullable string);
  ic_title : optional (nullable string);
  ic_status : optional string;
  ic_notes : optional (nullable string)
}.

(** The object given to [updateContact]. Its declared type is
    [Partial<InsertContact>]: every field of [InsertContact], each one
    possibly missing. Types are structural and erased, so the object may
    also carry the remaining keys of a contact ([id], [createdAt],
    [updatedAt]); the spread copies whatever own keys it finds. *)
Record ContactUpdate := mkContactUpdate {
  cu_name : optional string;
  cu_email : optional string;
  cu_phone : optional (nullable string);
  cu_company : optional (nullable string);
  cu_title : optional (nullable string);
  cu_status : optional string;
  cu_notes : optional (nullable string);
  cu_id : optional string;
  cu_createdAt : optional Z;
  cu_updatedAt : optional Z
}.

(** [Activity = typeof activities.$inferSelect]. *)
Record Activity := mkActivity {
  activity_id : string;
  contactId : string;
  activity_type : string;
  activity_title : string;
  description : nullable string;
  scheduledAt : nullable Z;
  completedAt : nullable Z;
  activity_createdAt : Z
}.

(** [InsertActivity]: without [id] and [createdAt]. *)
Record InsertActivity := mkInsertActivity {
  ia_contactId : string;
  ia_type : string;
  ia_title : string;
  ia_description : optional (nullable string);
  ia_scheduledAt : optional (nullable Z);
  ia_completedAt : optional (nullable Z)
}.

End Schema.

(** ** Local time

    [getMetrics] asks the host for the local calendar day:
    [setHours(0, 0, 0, 0)] and [setDate(getDate() + 1)]. What they return
    depends on the time zone of the process, so the zone is an input. *)

Module LocalTime.

Record Zone := mkZone {
  (** [d.setHours(0, 0, 0, 0)]: local midnight of the day of [d]. *)
  setHours0 : Z -> Z;
  (** [d.setDate(d.getDate() + 1)]: the same local time, one day on. *)
  addOneDay : Z -> Z
}.

Definition msPerDay : Z := 86400000.

(** A zone at a fixed offset from UTC, in milliseconds (no daylight
    saving). *)
Definition fixedZone (offset : Z) : Zone :=
  {| setHours0 := fun t => t - (t + offset) mod msPerDay;
     addOneDay := fun t => t + msPerDay |}.

Definition utc : Zone := fixedZone 0.

End LocalTime.

(** ** The repository (storage.ts, [class MemStorage]) *)

Module Storage.
Import JS Schema LocalTime.

(** The three private maps of [MemStorage]. *)
Record MemStorage := mkMemStorage {
  users : Map User;
  contacts : Map Contact;
  activities : Map Activity
}.

(** [constructor()]. *)
Definition empty : MemStorage :=
  {| users := Map_empty; contacts := Map_empty; activities := Map_empty |}.

(** *** User methods *)

Definition getUser (s : MemStorage) (uid : string) : option User :=
  Map_get uid (users s).

Definition getUserByUsername (s : MemStorage) (uname : string) : option User :=
  find (fun user => String.eqb (username user) uname) (Map_values (users s)).

Definition createUser (uid : string) (insertUser : InsertUser) (s : MemStorage)
  : User * MemStorage :=
  let user := {| user_id := uid;
                 username := iu_username insertUser;
                 password := iu_password insertUser |} in
  (user, {| users := Map_set uid user (users s);
            contacts := contacts s;
            activities := activities s |}).

(** *** Contact methods *)

(** The [filters] argument of [getContacts]. *)
Record ContactFilters := mkContactFilters {
  search : optional string;
  f_company : optional string;
  f_status : optional string
}.

(** [filters?.field]: [undefined] when [filters] is. *)
Definition chain {A} (filters : optional ContactFilters)
    (field : ContactFilters -> optional A) : optional A :=
  match filters with
  | Some f => field f
  | None => None
  end.

(** A string that is given and is not empty, as [if (x)] tests it. *)
Definition given (x : optional string) : option string :=
  match x with
  | Some v => if truthy v then Some v else None
  | None => None
  end.

(** The predicate of the [search] filter. *)
Definition search_matches {lc : Casing} (searchLower : string)
    (contact : Contact) : bool :=
  (includes (toLowerCase (name contact)) searchLower ||
   includes (toLowerCase (email contact)) searchLower ||
   match company contact with
   | Some co => truthy co && includes (toLowerCase co) searchLower
   | None => false
   end)%bool.

(** The comparator of [getContacts]:
    [new Date(b.updatedAt).getTime() - new Date(a.updatedAt).getTime()]. *)
Definition by_updatedAt_desc (a b : Contact) : Z := updatedAt b - updatedAt a.

Definition getContacts {lc : Casing} (s : MemStorage)
    (filters : optional ContactFilters) : list Contact :=
  let cs := Map_values (contacts s) in
  let cs :=
    match given (chain filters search) with
    | Some q =>
        let searchLower := toLowerCase q in
        filter (search_matches searchLower) cs
    | None => cs
    end in
  let cs :=
    match given (chain filters f_company) with
    | Some co =>
        if negb (String.eqb co "all")
        then filter (fun contact => strict_eq (company contact) co) cs
        else cs
    | None => cs
    end in
  let cs :=
    match given (chain filters f_status) with
    | Some st =>
        if negb (String.eqb st "all")
        then filter (fun contact => strict_eq (status contact) st) cs
        else cs
    | None => cs
    end in
  Array_sort by_updatedAt_desc cs.

Definition getContact (s : MemStorage) (cid : string) : option Contact :=
  Map_get cid (contacts s).

(** [createContact]; [cid] is the result of [randomUUID()] and [now] of
    [new Date()]. The spread copies [name], [email] and, when present,
    [status]; the four nullable fields are normalised; [id] and both
    timestamps are set last. *)
Definition createContact (cid : string) (now : Z)
    (insertContact : InsertContact) (s : MemStorage) : Contact * MemStorage :=
  let contact :=
    {| id := cid;
       name := ic_name insertContact;
       email := ic_email insertContact;
       phone := or_null (ic_phone insertContact);
       company := or_null (ic_company insertContact);
       title := or_null (ic_title insertContact);
       status := ic_status insertContact;
       notes := or_null (ic_notes insertContact);
       createdAt := now;
       updatedAt := now |} in
  (contact, {| users := users s;
               contacts := Map_set cid contact (contacts s);
               activities := activities s |}).

(** One key of [{ ...existing, ...contactUpdate }]: the update's value
    when the update has the key, the existing one otherwise. *)
Definition spread {A} (existing : A) (upd : optional A) : A :=
  match upd with
  | Some v => v
  | None => existing
  end.

(** [updateContact]; [now] is the result of [new Date()]. [updatedAt]
    comes after both spreads, so it always is [now]. *)
Definition updateContact (now : Z) (cid : string)
    (contactUpdate : ContactUpdate) (s : MemStorage)
  : option Contact * MemStorage :=
  match Map_get cid (contacts s) with
  | None => (None, s)
  | Some existing =>
      let updated :=
        {| id := spread (id existing) (cu_id contactUpdate);
           name := spread (name existing) (cu_name contactUpdate);
           email := spread (email existing) (cu_email contactUpdate);
           phone := spread (phone existing) (cu_phone contactUpdate);
           company := spread (company existing) (cu_company contactUpdate);
           title := spread (title existing) (cu_title contactUpdate);
           status :=
             match cu_status contactUpdate with
             | Some st => Some st
             | None => status existing
             end;
           notes := spread (notes existing) (cu_notes contactUpdate);
           createdAt := spread (createdAt existing) (cu_createdAt contactUpdate);
           updatedAt := now |} in
      (Some updated, {| users := users s;
                        contacts := Map_set cid updated (contacts s);
                        activities := activities s |})
  end.

(** The body of the [forEach] of [deleteContact], run over a snapshot of
    the entries: an activity of the contact is deleted from the map. *)
Definition cascade_step (cid : string) (acts : Map Activity)
    (entry : string * Activity) : Map Activity :=
  let '(activityId, activity) := entry in
  if String.eqb (contactId activity) cid
  then snd (Map_delete activityId acts)
  else acts.

Definition deleteContact (cid : string) (s : MemStorage) : bool * MemStorage :=
  let '(deleted, contacts') := Map_delete cid (contacts s) in
  let activities' :=
    fold_left (cascade_step cid) (Map_entries (activities s)) (activities s) in
  (deleted, {| users := users s;
               contacts := contacts';
               activities := activities' |}).

(** An entry of [acts] is hit by the cascade over the snapshot [es] when
    an entry of the snapshot with its key belongs to the contact. *)
Definition cascade_hit (cid : string) (es : list (string * Activity))
    (p : string * Activity) : bool :=
  existsb (fun e => String.eqb (contactId (snd e)) cid &&
                    String.eqb (fst p) (fst e))%bool es.

(** *** Activity methods *)

Definition by_createdAt_desc (a b : Activity) : Z :=
  activity_createdAt b - activity_createdAt a.

Definition getActivities (s : MemStorage) (cid : optional string)
  : list Activity :=
  let acts := Map_values (activities s) in
  let acts :=
    match given cid with
    | Some c => filter (fun activity => String.eqb (contactId activity) c) acts
    | None => acts
    end in
  Array_sort by_createdAt_desc acts.

Definition createActivity (aid : string) (now : Z)
    (insertActivity : InsertActivity) (s : MemStorage) : Activity * MemStorage :=
  let activity :=
    {| activity_id := aid;
       contactId := ia_contactId insertActivity;
       activity_type := ia_type insertActivity;
       activity_title := ia_title insertActivity;
       description := or_null (ia_description insertActivity);
       scheduledAt := or_null_date (ia_scheduledAt insertActivity);
       completedAt := or_null_date (ia_completedAt insertActivity);
       activity_createdAt := now |} in
  (activity, {| users := users s;
                contacts := contacts s;
                activities := Map_set aid activity (activities s) |}).

(** *** Dashboard metrics *)

Record Metrics := mkMetrics {
  totalContacts : Z;
  activeLeads : Z;
  todayActivities : Z;
  conversionRate : number
}.

Definition has_status (st : string) (c : Contact) : bool :=
  strict_eq (status c) st.

(** [arr.length]. *)
Definition len {A} (l : list A) : Z := Z.of_nat (List.length l).

(** [activityDate >= today && activityDate < tomorrow]. *)
Definition in_day (today tomorrow : Z) (a : Activity) : bool :=
  ((today <=? activity_createdAt a) && (activity_createdAt a <? tomorrow))%bool.

(** [totalContacts > 0 ? (activeContacts / totalContacts) * 100 : 0]. *)
Definition rate (activeContacts total : Z) : number :=
  if 0 <? total
  then num_mul (num_div (of_Z activeContacts) (of_Z total)) (of_Z 100)
  else of_Z 0.

(** [Math.round(x * 10) / 10]. *)
Definition round1 (x : number) : number :=
  num_div (Math_round (num_mul x (of_Z 10))) (of_Z 10).

(** [getMetrics]; [tz] is the zone of the host and [now] the result of
    [new Date()]. *)
Definition getMetrics (tz : Zone) (now : Z) (s : MemStorage) : Metrics :=
  let cs := Map_values (contacts s) in
  let acts := Map_values (activities s) in
  let total := len cs in
  let leads := len (filter (has_status "prospect") cs) in
  let today := setHours0 tz now in
  let tomorrow := addOneDay tz today in
  let todayCount := len (filter (in_day today tomorrow) acts) in
  let activeContacts := len (filter (has_status "active") cs) in
  let conversion := rate activeContacts total in
  {| totalContacts := total;
     activeLeads := leads;
     todayActivities := todayCount;
     conversionRate := round1 conversion |}.

(** *** Repositories that the methods can build *)

(** The three maps have pairwise distinct keys. *)
Definition wf (s : MemStorage) : Prop :=
  Map_wf (users s) /\ Map_wf (contacts s) /\ Map_wf (activities s).

(** Every activity refers to a stored contact. The schema declares this
    reference; [createActivity] does not check it. *)
Definition referential (s : MemStorage) : Prop :=
  forall a, In a (Map_values (activities s)) ->
            Map_has (contactId a) (contacts s) = true.

(** The states reached from [new MemStorage()] by the mutating methods. *)
Inductive reachable : MemStorage -> Prop :=
| reach_empty : reachable empty
| reach_createUser uid data s :
    reachable s -> reachable (snd (createUser uid data s))
| reach_createContact cid now data s :
    reachable s -> reachable (snd (createContact cid now data s))
| reach_updateContact now cid u s :
    reachable s -> reachable (snd (updateContact now cid u s))
| reach_deleteContact cid s :
    reachable s -> reachable (snd (deleteContact cid s))
| reach_createActivity aid now data s :
    reachable s -> reachable (snd (createActivity aid now data s)).

End Storage.

(** ** The API adapter (routes.js, [registerRoutes])

    Each handler maps a request to a repository call and the result to a
    response. The schema validators ([insertContactSchema.parse] and the
    like) belong to a library: they are inputs of the adapter, a function
    from the request body to the parsed value or to the issues of the
    [ZodError] it throws. Query parameters are strings or missing. The
    repository does not throw, so the [catch] of a handler is reached by a
    [ZodError] only. *)

Module Routes.
Import JS Schema LocalTime Storage.

Section Adapter.

(** [req.body]. *)
Variable Raw : Type.
(** [error.errors] of a [ZodError]. *)
Variable Issues : Type.
(** [insertContactSchema.parse]. *)
Variable parseContact : Raw -> Issues + InsertContact.
(** [insertContactSchema.partial().parse]. *)
Variable parseContactUpdate : Raw -> Issues + ContactUpdate.
(** [insertActivitySchema.parse]. *)
Variable parseActivity : Raw -> Issues + InsertActivity.

(** What a handler passes to [res.json]. *)
Inductive Json :=
| JMetrics (m : Metrics)
| JContacts (l : list Contact)
| JContact (c : Contact)
| JActivities (l : list Activity)
| JActivity (a : Activity)
| JMessage (message : string)
| JInvalid (message : string) (errors : Issues).

(** [res.status(code).json(body)]; [res.json(body)] alone is a 200. *)
Record Response := mkResponse {
  code : Z;
  body : Json
}.

(** [req.query] of the contact list. *)
Record ContactQuery := mkContactQuery {
  q_search : optional string;
  q_company : optional string;
  q_status : optional string
}.

(** [GET /api/metrics]. *)
Definition get_metrics (tz : Zone) (now : Z) (s : MemStorage) : Response :=
  {| code := 200; body := JMetrics (getMetrics tz now s) |}.

(** [GET /api/contacts]: the three query parameters always go into a
    filters object. *)
Definition get_contacts {lc : Casing} (q : ContactQuery) (s : MemStorage)
  : Response :=
  {| code := 200;
     body := JContacts
               (getContacts s
                  (Some {| search := q_search q;
                           f_company := q_company q;
                           f_status := q_status q |})) |}.

(** [GET /api/contacts/:id]. *)
Definition get_contact (cid : string) (s : MemStorage) : Response :=
  match getContact s cid with
  | None => {| code := 404; body := JMessage "Contact not found" |}
  | Some contact => {| code := 200; body := JContact contact |}
  end.

(** [POST /api/contacts]; [cid] and [now] are what [createContact] draws
    when the body is valid. *)
Definition post_contact (cid : string) (now : Z) (raw : Raw) (s : MemStorage)
  : Response * MemStorage :=
  match parseContact raw with
  | inl errors =>
      ({| code := 400; body := JInvalid "Invalid contact data" errors |}, s)
  | inr validatedData =>
      let '(contact, s') := createContact cid now validatedData s in
      ({| code := 201; body := JContact contact |}, s')
  end.

(** [PUT /api/contacts/:id]. *)
Definition put_contact (now : Z) (cid : string) (raw : Raw) (s : MemStorage)
  : Response * MemStorage :=
  match parseContactUpdate raw with
  | inl errors =>
      ({| code := 400; body := JInvalid "Invalid contact data" errors |}, s)
  | inr validatedData =>
      match updateContact now cid validatedData s with
      | (None, s') =>
          ({| code := 404; body := JMessage "Contact not found" |}, s')
      | (Some contact, s') => ({| code := 200; body := JContact contact |}, s')
      end
  end.

(** [DELETE /api/contacts/:id]. *)
Definition delete_contact (cid : string) (s : MemStorage)
  : Response * MemStorage :=
  let '(deleted, s') := deleteContact cid s in
  if deleted
  then ({| code := 200; body := JMessage "Contact deleted successfully" |}, s')
  else ({| code := 404; body := JMessage "Contact not found" |}, s').

(** [GET /api/activities]. *)
Definition get_activities (contactIdParam : optional string) (s : MemStorage)
  : Response :=
  {| code := 200; body := JActivities (getActivities s contactIdParam) |}.

(** [POST /api/activities]. *)
Definition post_activity (aid : string) (now : Z) (raw : Raw) (s : MemStorage)
  : Response * MemStorage :=
  match parseActivity raw with
  | inl errors =>
      ({| code := 400; body := JInvalid "Invalid activity data" errors |}, s)
  | inr validatedData =>
      let '(activity, s') := createActivity aid now validatedData s in
      ({| code := 201; body := JActivity activity |}, s')
  end.

End Adapter.

Arguments JMetrics {Issues}.
Arguments JContacts {Issues}.
Arguments JContact {Issues}.
Arguments JActivities {Issues}.
Arguments JActivity {Issues}.
Arguments JMessage {Issues}.
Arguments JInvalid {Issues}.
Arguments code {Issues}.
Arguments body {Issues}.
Arguments get_metrics {Issues}.
Arguments get_contacts {Issues} {lc}.
Arguments get_contact {Issues}.
Arguments post_contact {Raw Issues}.
Arguments put_contact {Raw Issues}.
Arguments delete_contact {Issues}.
Arguments get_activities {Issues}.
Arguments post_activity {Raw Issues}.

End Routes.

(** ** The properties, in the words of the specification *)

Module Spec.
Import JS Schema LocalTime Storage.

(** [q] is a case-insensitive substring of [s]: lower-cased by the engine,
    [q] occurs in [s]. *)
Definition ci_substring {lc : Casing} (q s : string) : Prop :=
  exists pre post, toLowerCase s = pre ++ toLowerCase q ++ post.

(** Two characters that are the same, or the same letter of A to Z in
    upper and in lower case; written on the character codes. *)
Definition same_letter (c d : ascii) : bool :=
  let m := nat_of_ascii c in
  let n := nat_of_ascii d in
  (Nat.eqb m n ||
   (Nat.leb 65 m && Nat.leb m 90 && Nat.eqb n (m + 32)) ||
   (Nat.leb 65 n && Nat.leb n 90 && Nat.eqb m (n + 32)))%bool.

(** Two strings of the same length, the same but for the case of
    letters. *)
Fixpoint same_ignoring_case (a b : string) : bool :=
  match a, b with
  | EmptyString, EmptyString => true
  | String c a', String d b' => (same_letter c d && same_ignoring_case a' b')%bool
  | _, _ => false
  end.

(** Some substring of [s] is [q] but for the case of letters. *)
Definition occurs_ignoring_case (q s : string) : Prop :=
  exists pre mid post,
    s = pre ++ mid ++ post /\ same_ignoring_case q mid = true.

(** The search string is a case-insensitive substring of the name, or of
    the email, or, when a company is present (neither [null] nor empty),
    of the company. *)
Definition search_spec {lc : Casing} (q : string) (c : Contact) : Prop :=
  ci_substring q (name c) \/
  ci_substring q (email c) \/
  (exists co, company c = Some co /\ co <> EmptyString /\ ci_substring q co).

(** The conjunction of the provided filters, [company] and [status] by
    exact equality and only "all" standing for no filter. *)
Definition satisfies_all_only {lc : Casing} (f : optional ContactFilters)
    (c : Contact) : Prop :=
  (forall q, chain f search = Some q -> search_spec q c) /\
  (forall co, chain f f_company = Some co -> co <> "all" ->
              company c = Some co) /\
  (forall st, chain f f_status = Some st -> st <> "all" ->
              status c = Some st).

(** The same, with the empty string standing for no filter as well. *)
Definition satisfies {lc : Casing} (f : optional ContactFilters)
    (c : Contact) : Prop :=
  (forall q, chain f search = Some q -> q <> EmptyString -> search_spec q c) /\
  (forall co, chain f f_company = Some co -> co <> EmptyString -> co <> "all" ->
              company c = Some co) /\
  (forall st, chain f f_status = Some st -> st <> EmptyString -> st <> "all" ->
              status c = Some st).

(** What the three filter steps of [getContacts] keep, as one test. *)
Definition keeps_search {lc : Casing} (f : optional ContactFilters)
    (c : Contact) : bool :=
  match given (chain f search) with
  | Some q => search_matches (toLowerCase q) c
  | None => true
  end.

Definition keeps_exact (v : optional string) (field : Contact -> option string)
    (c : Contact) : bool :=
  match given v with
  | Some x => if negb (String.eqb x "all") then strict_eq (field c) x else true
  | None => true
  end.

Definition keeps {lc : Casing} (f : optional ContactFilters) (c : Contact)
  : bool :=
  (keeps_search f c &&
   keeps_exact (chain f f_company) company c &&
   keeps_exact (chain f f_status) status c)%bool.

(** The number of contacts with a given status. *)
Definition count_status (st : string) (s : MemStorage) : Z :=
  len (filter (has_status st) (Map_values (contacts s))).

(** [active / total * 100] as an exact rational. *)
Definition exact_rate (active total : Z) : Q :=
  (inject_Z active / inject_Z total * inject_Z 100)%Q.

(** The tenths of [q] rounded to one decimal place, a tie going up. *)
Definition tenths_half_up (q : Q) : Z :=
  Qfloor (q * inject_Z 10 + (1 # 2))%Q.

(** The same, a tie going to the even tenth. *)
Definition tenths_half_even (q : Q) : Z :=
  let x := (q * inject_Z 10)%Q in
  let lo := Qfloor x in
  match (x - inject_Z lo ?= 1 # 2)%Q with
  | Lt => lo
  | Gt => lo + 1
  | Eq => if Z.even lo then lo else lo + 1
  end.

(** The number written with one decimal, [k / 10]. *)
Definition decimal1 (k : Z) : number := num_div (of_Z k) (of_Z 10).

(** The conversion rate as the exact quotient rounded to one decimal. *)
Definition exact_conversionRate (active total : Z) : number :=
  if total =? 0 then of_Z 0
  else decimal1 (tenths_half_up (exact_rate active total)).

(** The integer that a number is, when it is one. *)
Definition to_Z (x : number) : option Z :=
  match x with
  | S754_zero _ => Some 0
  | S754_finite sg m e =>
      let v := if sg then Z.opp (Z.pos m) else Z.pos m in
      if 0 <=? e then Some (v * 2 ^ e)
      else if Z.pos m mod 2 ^ (- e) =? 0 then Some (v / 2 ^ (- e)) else None
  | _ => None
  end.

(** The rate of [active] out of [total] comes out as the decimal [k / 10]
    for an integer [k] nearest to the exact [1000 * active / total]. *)
Definition rate_is_nearest (active total : Z) : bool :=
  match to_Z (Math_round (num_mul (rate active total) (of_Z 10))) with
  | Some k =>
      (Z.abs (2000 * active - 2 * k * total) <=? total) &&
      SFeqb (round1 (rate active total)) (decimal1 k)
  | None => false
  end.

Definition rates_are_nearest (n : nat) : bool :=
  forallb (fun t =>
             forallb (fun a => rate_is_nearest (Z.of_nat a) (Z.of_nat t))
                     (seq 0 (S t)))
          (seq 1 n).

(** The real number [m * 2^e] that a mantissa and an exponent stand
    for. *)
Definition F2R (m e : Z) : R := (IZR m * powerRZ 2 e)%R.

(** One part in [2^52]: the relative distance between neighbouring
    doubles. *)
Definition eps : R := (/ 4503599627370496)%R.

(** Two numbers that are the same value, bit for bit. *)
Definition same_number (x y : number) : bool :=
  match x, y with
  | S754_zero a, S754_zero b => Bool.eqb a b
  | S754_infinity a, S754_infinity b => Bool.eqb a b
  | S754_nan, S754_nan => true
  | S754_finite a m e, S754_finite b n f =>
      Bool.eqb a b && Pos.eqb m n && Z.eqb e f
  | _, _ => false
  end.

(** The tenths [k] that the rate of [active] out of [total] comes out as,
    when it does: [0 <= k <= 1000], [k] within one half of the exact
    [1000 * active / total], and the rate the number [k / 10]. *)
Definition rate_tenths (active total : Z) : option Z :=
  match to_Z (Math_round (num_mul (rate active total) (of_Z 10))) with
  | Some k =>
      if (0 <=? k) && (k <=? 1000) &&
         (Z.abs (2000 * active - 2 * k * total) <=? total) &&
         same_number (round1 (rate active total)) (decimal1 k)
      then Some k else None
  | None => None
  end.

Definition rates_have_tenths (n : nat) : bool :=
  forallb (fun t =>
             forallb (fun a =>
                        match rate_tenths (Z.of_nat a) (Z.of_nat t) with
                        | Some _ => true
                        | None => false
                        end)
                     (seq 0 (S t)))
          (seq 1 n).

(** Local midnight today and local midnight tomorrow, at [now]. *)
Definition midnight_today (tz : Zone) (now : Z) : Z := setHours0 tz now.
Definition midnight_tomorrow (tz : Zone) (now : Z) : Z :=
  addOneDay tz (setHours0 tz now).

(** An activity created in [[midnight today, midnight tomorrow)]. *)
Definition created_today (tz : Zone) (now : Z) (a : Activity) : Prop :=
  midnight_today tz now <= activity_createdAt a < midnight_tomorrow tz now.

End Spec.

(** ** Sample repositories *)

Module Sample.
Import JS Schema LocalTime Storage.

Definition newContact (n e : string) (st : optional string) : InsertContact :=
  {| ic_name := n; ic_email := e; ic_phone := None; ic_company := None;
     ic_title := None; ic_status := st; ic_notes := None |}.

Definition newActivity (cid t : string) : InsertActivity :=
  {| ia_contactId := cid; ia_type := "call"; ia_title := t;
     ia_description := None; ia_scheduledAt := None; ia_completedAt := None |}.

Definition noUpdate : ContactUpdate :=
  {| cu_name := None; cu_email := None; cu_phone := None; cu_company := None;
     cu_title := None; cu_status := None; cu_notes := None;
     cu_id := None; cu_createdAt := None; cu_updatedAt := None |}.

(** One contact, "c1", with two activities, and an activity "a3" that
    refers to a contact that was never created. *)
Definition s_ann : MemStorage :=
  snd (createContact "c1" 1000 (newContact "Ann" "ann@acme.example" (Some "active")) empty).
Definition s_acts : MemStorage :=
  snd (createActivity "a3" 1300 (newActivity "ghost" "orphan")
    (snd (createActivity "a2" 1200 (newActivity "c1" "second")
      (snd (createActivity "a1" 1100 (newActivity "c1" "first") s_ann))))).

(** Two contacts, the second one of company "Acme Corp". *)
Definition s_two : MemStorage :=
  snd (createContact "c2" 2000
         {| ic_name := "Bob"; ic_email := "bob@mail.example"; ic_phone := None;
            ic_company := Some (Some "Acme Corp"); ic_title := None;
            ic_status := Some "prospect"; ic_notes := None |} s_ann).

(** [n] contacts "k0" ... created one after the other, the first
    [active] of them with status "active", the others "prospect". *)
Definition key (i : nat) : string :=
  "k" ++ NilEmpty.string_of_uint (Nat.to_uint i).

Fixpoint populate (n active : nat) : MemStorage :=
  match n with
  | O => empty
  | S i =>
      snd (createContact (key i) (Z.of_nat i)
             (newContact "N" "n@mail.example"
                (Some (if Nat.ltb i active then "active" else "prospect")))
             (populate i active))
  end.

Definition s_80 : MemStorage := populate 80 23.

End Sample.

(** ** Sample requests *)

Module SampleRoutes.
Import JS Schema LocalTime Storage.

(** A body is the value a valid request parses to, or nothing for a body
    the schema rejects. *)
Definition parseBody {A} (raw : option A) : string + A :=
  match raw with
  | Some v => inr v
  | None => inl "Required"
  end.

Definition rename (n : string) : ContactUpdate :=
  {| cu_name := Some n; cu_email := None; cu_phone := None; cu_company := None;
     cu_title := None; cu_status := None; cu_notes := None;
     cu_id := None; cu_createdAt := None; cu_updatedAt := None |}.

End SampleRoutes.

Import JS Schema LocalTime Storage Spec.

(** * Properties of the built-ins *)

(** ** Strings *)

Lemma prefix_spec (a b : string) :
  String.prefix a b = true <-> exists post, b = a ++ post.
Proof.
  revert b; induction a as [|c a IH]; intros b; simpl.
  - split; [intros _; exists b; reflexivity | destruct b; reflexivity].
  - destruct b as [|d b].
    + split; [discriminate | intros [post H]; discriminate].
    + cbn [String.prefix]. destruct (Ascii.ascii_dec c d) as [->|Hcd].
      * rewrite IH. split; intros [post H]; exists post.
        -- now rewrite H.
        -- now inversion H.
      * split; [discriminate | intros [post H]; inversion H; congruence].
Qed.

Lemma includes_spec (s sub : string) :
  includes s sub = true <-> exists pre post, s = pre ++ sub ++ post.
Proof.
  induction s as [|c s IH].
  - cbn [includes]. rewrite orb_false_r, prefix_spec. split.
    + intros [post H]. exists EmptyString, post. exact H.
    + intros [pre [post H]]. destruct pre; [now exists post | discriminate].
  - cbn [includes]. rewrite orb_true_iff, prefix_spec, IH. split.
    + intros [[post H] | [pre [post H]]].
      * exists EmptyString, post. exact H.
      * exists (String c pre), post. simpl. now rewrite H.
    + intros [pre [post H]]. destruct pre as [|d pre].
      * left. now exists post.
      * right. exists pre, post. simpl in H. now inversion H.
Qed.

Lemma includes_empty (s : string) : includes s EmptyString = true.
Proof. apply includes_spec. exists EmptyString, s. reflexivity. Qed.

Lemma truthy_false (s : string) : truthy s = false <-> s = EmptyString.
Proof. destruct s; simpl; split; congruence. Qed.

Lemma truthy_true (s : string) : truthy s = true <-> s <> EmptyString.
Proof. destruct s; simpl; split; congruence. Qed.

Lemma strict_eq_spec (a : option string) (b : string) :
  strict_eq a b = true <-> a = Some b.
Proof.
  destruct a as [x|]; simpl.
  - rewrite String.eqb_eq. split; congruence.
  - split; discriminate.
Qed.

(** ** Maps *)

Section MapFacts.
Context {V : Type}.
Implicit Types (m : Map V) (k : string) (v : V).

Lemma Map_get_set_same k v m : Map_get k (Map_set k v m) = Some v.
Proof.
  unfold Map_get. induction m as [|[k' v'] m IH]; simpl.
  - now rewrite String.eqb_refl.
  - destruct (String.eqb k' k) eqn:E; simpl.
    + now rewrite String.eqb_refl.
    + now rewrite E.
Qed.

Lemma Map_get_set_other k k' v m :
  k' <> k -> Map_get k' (Map_set k v m) = Map_get k' m.
Proof.
  intros Hne. unfold Map_get. induction m as [|[k0 v0] m IH]; simpl.
  - apply String.eqb_neq in Hne. rewrite String.eqb_sym in Hne.
    now rewrite Hne.
  - destruct (String.eqb k0 k) eqn:E; simpl.
    + apply String.eqb_eq in E; subst k0.
      apply String.eqb_neq in Hne. rewrite String.eqb_sym in Hne.
      now rewrite Hne.
    + destruct (String.eqb k0 k'); [reflexivity | exact IH].
Qed.

Lemma Map_get_remove_same k m : Map_get k (Map_remove k m) = None.
Proof.
  unfold Map_get, Map_remove. induction m as [|[k' v'] m IH]; simpl.
  - reflexivity.
  - destruct (String.eqb k' k) eqn:E; simpl; [exact IH | now rewrite E].
Qed.

Lemma Map_has_get k m : Map_has k m = true <-> Map_get k m <> None.
Proof.
  unfold Map_has, Map_get. induction m as [|[k' v'] m IH]; simpl.
  - split; [discriminate | congruence].
  - destruct (String.eqb k' k); simpl; [split; congruence | exact IH].
Qed.

Lemma Map_has_false_get k m : Map_has k m = false <-> Map_get k m = None.
Proof.
  destruct (Map_has k m) eqn:E.
  - apply Map_has_get in E. split; [discriminate | contradiction].
  - split; [intros _ | reflexivity].
    destruct (Map_get k m) eqn:G; [|reflexivity].
    assert (Map_has k m = true) by (apply Map_has_get; congruence).
    congruence.
Qed.

Lemma Map_has_keys k m : Map_has k m = true <-> In k (Map_keys m).
Proof.
  unfold Map_has, Map_keys. rewrite existsb_exists, in_map_iff.
  split; intros [p [H1 H2]]; exists p.
  - apply String.eqb_eq in H2. now split.
  - split; [exact H2 | now apply String.eqb_eq].
Qed.

Lemma Map_remove_absent k m : Map_has k m = false -> Map_remove k m = m.
Proof.
  unfold Map_has, Map_remove. induction m as [|[k' v'] m IH]; simpl.
  - reflexivity.
  - destruct (String.eqb k' k); simpl; [discriminate |].
    intros H. now rewrite IH.
Qed.

Lemma Map_get_In k v m : Map_get k m = Some v -> In (k, v) m.
Proof.
  unfold Map_get. destruct (find _ m) as [[k' v']|] eqn:F; [|discriminate].
  apply find_some in F. destruct F as [Hin Heq]. simpl in Heq.
  apply String.eqb_eq in Heq. subst k'. simpl. now intros [= ->].
Qed.

Lemma Map_keys_set k v m :
  Map_keys (Map_set k v m) =
  if Map_has k m then Map_keys m else (Map_keys m ++ [k])%list.
Proof.
  unfold Map_keys, Map_has. induction m as [|[k' v'] m IH]; simpl.
  - reflexivity.
  - destruct (String.eqb k' k) eqn:E; simpl.
    + apply String.eqb_eq in E. now subst.
    + rewrite IH. now destruct (existsb _ m).
Qed.

Lemma Map_wf_set k v m : Map_wf m -> Map_wf (Map_set k v m).
Proof.
  unfold Map_wf. rewrite Map_keys_set. destruct (Map_has k m) eqn:E; [easy|].
  intros H. apply NoDup_app; [exact H | repeat constructor; intros [] | ].
  intros x Hx [<-|[]].
  apply Map_has_keys in Hx. congruence.
Qed.

Lemma Map_wf_remove k m : Map_wf m -> Map_wf (Map_remove k m).
Proof.
  unfold Map_wf, Map_keys, Map_remove.
  induction m as [|[k' v'] m IH]; simpl; [easy|].
  intros H. inversion H as [|? ? Hnin Hnd]; subst.
  destruct (String.eqb k' k); simpl; [now apply IH|].
  constructor; [|now apply IH].
  intros Hin. apply Hnin. apply in_map_iff in Hin.
  destruct Hin as [p [Hp Hin]]. apply filter_In in Hin.
  apply in_map_iff. exists p. tauto.
Qed.

End MapFacts.

(** ** Sorting by a numeric key, largest first

    Both comparators of the repository have the shape
    [key b - key a]. *)

Section SortFacts.
Context {A : Type} (key : A -> Z).

Let cmp (a b : A) : Z := key b - key a.
Let desc (a b : A) : Prop := key b <= key a.

Lemma sort_insert_perm (x : A) (l : list A) :
  Permutation (x :: l) (sort_insert cmp x l).
Proof.
  induction l as [|y l IH]; simpl.
  - apply Permutation_refl.
  - destruct (0 <? cmp x y).
    + eapply Permutation_trans; [apply perm_swap | now apply perm_skip].
    + apply Permutation_refl.
Qed.

Lemma Array_sort_perm (l : list A) : Permutation l (Array_sort cmp l).
Proof.
  induction l as [|x l IH]; simpl.
  - apply perm_nil.
  - eapply Permutation_trans; [apply perm_skip, IH | apply sort_insert_perm].
Qed.

Lemma sort_insert_sorted (x : A) (l : list A) :
  StronglySorted desc l -> StronglySorted desc (sort_insert cmp x l).
Proof.
  induction l as [|y l IH]; simpl; intros Hs.
  - repeat constructor.
  - inversion Hs as [|? ? Hl Hall]; subst.
    destruct (0 <? cmp x y) eqn:E.
    + apply Z.ltb_lt in E. constructor; [now apply IH|].
      apply (Permutation_Forall (sort_insert_perm x l)).
      constructor; [unfold desc, cmp in *; lia | exact Hall].
    + apply Z.ltb_ge in E. constructor; [exact Hs|].
      constructor; [unfold desc, cmp in *; lia|].
      eapply Forall_impl; [|exact Hall].
      intros z Hz. unfold desc, cmp in *. lia.
Qed.

Lemma Array_sort_sorted (l : list A) : StronglySorted desc (Array_sort cmp l).
Proof.
  induction l as [|x l IH]; simpl.
  - constructor.
  - now apply sort_insert_sorted.
Qed.

Lemma Array_sort_In (l : list A) (x : A) : In x (Array_sort cmp l) <-> In x l.
Proof.
  split; apply Permutation_in;
    [apply Permutation_sym |]; apply Array_sort_perm.
Qed.

End SortFacts.

(** A strongly sorted list, read at two positions. *)
Lemma StronglySorted_split {A} (R : A -> A -> Prop) (l1 l2 l3 : list A) (a b : A) :
  StronglySorted R (l1 ++ a :: l2 ++ b :: l3)%list -> R a b.
Proof.
  induction l1 as [|x l1 IH]; simpl; intros H.
  - inversion H as [|? ? _ Hall]; subst.
    rewrite Forall_forall in Hall. apply Hall.
    apply in_or_app. right. now left.
  - inversion H; subst. now apply IH.
Qed.

(** * Properties of the repository *)

(** ** The cascade of [deleteContact] *)

Lemma cascade_fold (cid : string) (es : list (string * Activity))
    (acts : Map Activity) :
  fold_left (cascade_step cid) es acts =
  filter (fun p => negb (cascade_hit cid es p)) acts.
Proof.
  revert acts; induction es as [|[aid a] es IH]; intros acts; simpl.
  - induction acts as [|p acts IHa]; simpl; [reflexivity | now rewrite <- IHa].
  - rewrite IH. unfold cascade_hit. simpl.
    destruct (String.eqb (contactId a) cid); simpl; [|reflexivity].
    unfold Map_remove. induction acts as [|p acts IHa]; simpl; [reflexivity|].
    destruct (String.eqb (fst p) aid); simpl.
    + exact IHa.
    + destruct (existsb _ es); simpl; [exact IHa | now rewrite IHa].
Qed.

Lemma Map_wf_key_inj {V} (m : Map V) (p e : string * V) :
  Map_wf m -> In p m -> In e m -> fst p = fst e -> p = e.
Proof.
  unfold Map_wf, Map_keys. induction m as [|x m IH]; simpl; [easy|].
  intros Hnd Hp He Hk. inversion Hnd as [|? ? Hnin Hnd']; subst.
  destruct Hp as [->|Hp], He as [->|He]; try reflexivity.
  - exfalso. apply Hnin. rewrite Hk. now apply in_map.
  - exfalso. apply Hnin. rewrite <- Hk. now apply in_map.
  - now apply IH.
Qed.

Lemma cascade_hit_self (cid : string) (acts : Map Activity) (p : string * Activity) :
  In p acts -> String.eqb (contactId (snd p)) cid = true ->
  cascade_hit cid acts p = true.
Proof.
  intros Hin Hc. unfold cascade_hit. apply existsb_exists. exists p.
  split; [exact Hin|]. now rewrite Hc, String.eqb_refl.
Qed.

Lemma cascade_hit_wf (cid : string) (acts : Map Activity) (p : string * Activity) :
  Map_wf acts -> In p acts ->
  cascade_hit cid acts p = String.eqb (contactId (snd p)) cid.
Proof.
  intros Hwf Hin. destruct (String.eqb (contactId (snd p)) cid) eqn:E.
  - now apply cascade_hit_self.
  - unfold cascade_hit. apply not_true_is_false. intros H.
    apply existsb_exists in H. destruct H as [e [He H]].
    apply andb_true_iff in H. destruct H as [H1 H2].
    apply String.eqb_eq in H2.
    rewrite (Map_wf_key_inj acts p e Hwf Hin He H2) in E. congruence.
Qed.

(** On a map, the cascade keeps exactly the activities of other
    contacts, in their order. *)
Lemma cascade_wf (cid : string) (acts : Map Activity) :
  Map_wf acts ->
  fold_left (cascade_step cid) (Map_entries acts) acts =
  filter (fun p => negb (String.eqb (contactId (snd p)) cid)) acts.
Proof.
  intros Hwf. unfold Map_entries. rewrite cascade_fold.
  apply filter_ext_in. intros p Hin. now rewrite cascade_hit_wf.
Qed.

Lemma filter_all {A} (f : A -> bool) (l : list A) :
  (forall x, In x l -> f x = true) -> filter f l = l.
Proof.
  induction l as [|x l IH]; simpl; intros H; [reflexivity|].
  rewrite (H x (or_introl eq_refl)). f_equal. apply IH. auto.
Qed.

(** Without any activity of the contact, the cascade changes nothing. *)
Lemma cascade_none (cid : string) (acts : Map Activity) :
  (forall a, In a (Map_values acts) -> contactId a <> cid) ->
  fold_left (cascade_step cid) (Map_entries acts) acts = acts.
Proof.
  intros H. unfold Map_entries. rewrite cascade_fold. apply filter_all.
  intros p Hin. apply negb_true_iff, not_true_is_false. intros Hh.
  apply existsb_exists in Hh. destruct Hh as [e [He Hh]].
  apply andb_true_iff in Hh. destruct Hh as [Hc _].
  apply String.eqb_eq in Hc. apply (H (snd e)); [|exact Hc].
  unfold Map_values. now apply in_map.
Qed.

(** After the cascade no activity of the contact is left. *)
Lemma cascade_clears (cid : string) (acts : Map Activity) (a : Activity) :
  In a (Map_values (fold_left (cascade_step cid) (Map_entries acts) acts)) ->
  contactId a <> cid.
Proof.
  unfold Map_entries, Map_values. rewrite cascade_fold, in_map_iff.
  intros [p [<- Hin]] Hc. apply filter_In in Hin. destruct Hin as [Hin Hk].
  apply negb_true_iff in Hk.
  rewrite cascade_hit_self in Hk; [discriminate | exact Hin |].
  now apply String.eqb_eq.
Qed.

Lemma deleteContact_eq (cid : string) (s : MemStorage) :
  deleteContact cid s =
  (Map_has cid (contacts s),
   {| users := users s;
      contacts := Map_remove cid (contacts s);
      activities :=
        fold_left (cascade_step cid) (Map_entries (activities s)) (activities s) |}).
Proof. reflexivity. Qed.

Lemma MemStorage_eta (s : MemStorage) :
  {| users := users s; contacts := contacts s; activities := activities s |} = s.
Proof. now destruct s. Qed.

Lemma getActivities_In (s : MemStorage) (q : optional string) (a : Activity) :
  In a (getActivities s q) -> In a (Map_values (activities s)).
Proof.
  unfold getActivities. intros H.
  apply (proj1 (Array_sort_In activity_createdAt _ _)) in H.
  destruct (given q); [now apply filter_In in H | exact H].
Qed.

Lemma Map_get_none_keys {V} (k : string) (m : Map V) :
  (forall p, In p m -> fst p <> k) -> Map_get k m = None.
Proof.
  intros H. apply Map_has_false_get, not_true_is_false. intros Hh.
  apply Map_has_keys in Hh. unfold Map_keys in Hh. apply in_map_iff in Hh.
  destruct Hh as [p [Hk Hin]]. exact (H p Hin Hk).
Qed.

(** ** [deleteContact] *)

(** C1, as stated, fails: an activity may refer to a contact that does not
    exist ([createActivity] does not look the contact up), and
    [deleteContact] runs its cascade whether or not the contact was there.
    Deleting the absent contact "ghost" removes activity "a3". *)
Lemma deleteContact_absent_not_noop :
  ~ (forall (s : MemStorage) (cid : string),
       Map_has cid (contacts s) = false -> deleteContact cid s = (false, s)).
Proof.
  intros H. specialize (H Sample.s_acts "ghost" eq_refl).
  vm_compute in H. discriminate H.
Qed.

(** C1, amended: for an id that is not in the contacts collection,
    [deleteContact] returns false and leaves the users and the contacts as
    they were; of the activities it keeps, in order, exactly those of other
    contacts, so all three collections are unchanged when no activity
    refers to the id. *)
Theorem deleteContact_absent (s : MemStorage) (cid : string) :
  Map_wf (activities s) ->
  Map_has cid (contacts s) = false ->
  fst (deleteContact cid s) = false /\
  users (snd (deleteContact cid s)) = users s /\
  contacts (snd (deleteContact cid s)) = contacts s /\
  activities (snd (deleteContact cid s)) =
    filter (fun p => negb (String.eqb (contactId (snd p)) cid)) (activities s) /\
  ((forall a, In a (Map_values (activities s)) -> contactId a <> cid) ->
   snd (deleteContact cid s) = s).
Proof.
  intros Hwf Habs. rewrite deleteContact_eq. cbn [fst snd users contacts activities].
  rewrite (Map_remove_absent _ _ Habs).
  repeat split; try assumption; try reflexivity.
  - now apply cascade_wf.
  - intros Hnone. rewrite (cascade_none _ _ Hnone). apply MemStorage_eta.
Qed.

Lemma deleteContact_absent_witness :
  fst (deleteContact "ghost" Sample.s_acts) = false /\
  users (snd (deleteContact "ghost" Sample.s_acts)) = users Sample.s_acts /\
  contacts (snd (deleteContact "ghost" Sample.s_acts)) = contacts Sample.s_acts /\
  activities (snd (deleteContact "ghost" Sample.s_acts)) =
    filter (fun p => negb (String.eqb (contactId (snd p)) "ghost"))
           (activities Sample.s_acts) /\
  ((forall a, In a (Map_values (activities Sample.s_acts)) ->
              contactId a <> "ghost") ->
   snd (deleteContact "ghost" Sample.s_acts) = Sample.s_acts).
Proof.
  apply (deleteContact_absent Sample.s_acts "ghost").
  - repeat constructor; simpl; intuition discriminate.
  - reflexivity.
Defined.

(** C2: for an id that is in the contacts collection, [deleteContact]
    returns true; afterwards [getContact] finds nothing under the id, every
    activity of the contact is gone from the activities, and neither
    [getActivities()] nor [getActivities(id)] (nor any other call) returns
    an activity of the contact. *)
Theorem deleteContact_present (s : MemStorage) (cid : string) :
  Map_has cid (contacts s) = true ->
  fst (deleteContact cid s) = true /\
  getContact (snd (deleteContact cid s)) cid = None /\
  (forall aid a, In (aid, a) (Map_entries (activities s)) ->
                 contactId a = cid ->
                 Map_get aid (activities (snd (deleteContact cid s))) = None) /\
  (forall q a, In a (getActivities (snd (deleteContact cid s)) q) ->
               contactId a <> cid).
Proof.
  intros Hin. rewrite deleteContact_eq. cbn [fst snd]. repeat split.
  - exact Hin.
  - unfold getContact. cbn [contacts]. apply Map_get_remove_same.
  - intros aid a Ha Hc. cbn [activities]. unfold Map_entries in *.
    rewrite cascade_fold. apply Map_get_none_keys. intros p Hp Hk.
    apply filter_In in Hp. destruct Hp as [_ Hp]. apply negb_true_iff in Hp.
    enough (cascade_hit cid (activities s) p = true) by congruence.
    apply existsb_exists. exists (aid, a). split; [exact Ha|]. cbn [fst snd].
    apply andb_true_iff. split; apply String.eqb_eq; assumption.
  - intros q a Ha. apply getActivities_In in Ha. cbn [activities] in Ha.
    now apply cascade_clears in Ha.
Qed.

Lemma deleteContact_present_witness :
  fst (deleteContact "c1" Sample.s_acts) = true /\
  getContact (snd (deleteContact "c1" Sample.s_acts)) "c1" = None /\
  (forall aid a, In (aid, a) (Map_entries (activities Sample.s_acts)) ->
                 contactId a = "c1" ->
                 Map_get aid (activities (snd (deleteContact "c1" Sample.s_acts))) = None) /\
  (forall q a, In a (getActivities (snd (deleteContact "c1" Sample.s_acts)) q) ->
               contactId a <> "c1").
Proof.
  apply (deleteContact_present Sample.s_acts "c1"). reflexivity.
Defined.

(** ** [getContacts] *)

Lemma filter_filter {A} (f g : A -> bool) (l : list A) :
  filter g (filter f l) = filter (fun x => f x && g x)%bool l.
Proof.
  induction l as [|x l IH]; simpl; [reflexivity|].
  destruct (f x); simpl; [destruct (g x)|]; now rewrite IH.
Qed.

Lemma filter_true {A} (l : list A) : filter (fun _ => true) l = l.
Proof. apply filter_all. reflexivity. Qed.

(** The three steps of [getContacts] are one filter, followed by the
    sort. *)
Lemma getContacts_keeps {lc : Casing} (s : MemStorage)
    (f : optional ContactFilters) :
  getContacts s f =
  Array_sort by_updatedAt_desc (filter (keeps f) (Map_values (contacts s))).
Proof.
  unfold getContacts. f_equal.
  set (cs := Map_values (contacts s)).
  assert (E1 : match given (chain f search) with
               | Some q => filter (search_matches (toLowerCase q)) cs
               | None => cs
               end = filter (keeps_search f) cs).
  { unfold keeps_search. destruct (given (chain f search)).
    - reflexivity.
    - symmetry. apply filter_true. }
  rewrite E1. clear E1.
  assert (E2 : forall v field l,
             match given v with
             | Some x =>
                 if negb (String.eqb x "all")
                 then filter (fun contact : Contact => strict_eq (field contact) x) l
                 else l
             | None => l
             end = filter (keeps_exact v field) l).
  { intros v field l. unfold keeps_exact. destruct (given v) as [x|].
    - destruct (negb (String.eqb x "all")); [reflexivity|].
      symmetry. apply filter_true.
    - symmetry. apply filter_true. }
  rewrite (E2 (chain f f_company) company), (E2 (chain f f_status) status).
  rewrite !filter_filter. apply filter_ext. intros c. unfold keeps.
  now rewrite andb_assoc.
Qed.

Lemma given_spec (v : optional string) (x : string) :
  given v = Some x <-> v = Some x /\ x <> EmptyString.
Proof.
  unfold given. destruct v as [y|].
  - destruct (truthy y) eqn:T.
    + apply truthy_true in T. split.
      * intros [= ->]. now split.
      * now intros [-> _].
    + apply truthy_false in T. subst y. split; [discriminate|].
      intros [[= <-] H]. now contradiction H.
  - split; [discriminate | now intros [? _]].
Qed.

Lemma given_none (v : optional string) :
  given v = None <-> v = None \/ v = Some EmptyString.
Proof.
  unfold given. destruct v as [y|].
  - destruct (truthy y) eqn:T.
    + apply truthy_true in T. split; [discriminate|].
      intros [H|[= ->]]; [discriminate | now contradiction T].
    + apply truthy_false in T. subst y. split; auto.
  - split; auto.
Qed.

Lemma search_matches_spec {lc : Casing} (q : string) (c : Contact) :
  search_matches (toLowerCase q) c = true <-> search_spec q c.
Proof.
  unfold search_matches, search_spec.
  rewrite !orb_true_iff, !includes_spec. fold (ci_substring q (name c)).
  fold (ci_substring q (email c)).
  enough (H : match company c with
              | Some co => (truthy co && includes (toLowerCase co) (toLowerCase q))%bool
              | None => false
              end = true <->
              exists co, company c = Some co /\ co <> EmptyString /\
                         ci_substring q co) by tauto.
  destruct (company c) as [co|].
  - rewrite andb_true_iff, includes_spec, truthy_true. split.
    + intros [Hne H]. exists co. now repeat split.
    + intros [co' [[= <-] [Hne H]]]. now split.
  - split; [discriminate | intros [co [H _]]; discriminate].
Qed.

Lemma keeps_search_spec {lc : Casing} (f : optional ContactFilters)
    (c : Contact) :
  keeps_search f c = true <->
  (forall q, chain f search = Some q -> q <> EmptyString -> search_spec q c).
Proof.
  unfold keeps_search. destruct (given (chain f search)) as [q|] eqn:G.
  - apply given_spec in G. destruct G as [G Hq].
    rewrite (search_matches_spec q c). split.
    + intros H q' Hq' _. congruence.
    + intros H. now apply H.
  - apply given_none in G. split; [|reflexivity]. intros _ q Hq Hne.
    destruct G as [G|G]; rewrite G in Hq; [discriminate|].
    injection Hq as <-. now contradiction Hne.
Qed.

Lemma keeps_exact_spec (v : optional string) (field : Contact -> option string)
    (c : Contact) :
  keeps_exact v field c = true <->
  (forall x, v = Some x -> x <> EmptyString -> x <> "all" -> field c = Some x).
Proof.
  unfold keeps_exact. destruct (given v) as [x|] eqn:G.
  - apply given_spec in G. destruct G as [-> Hx].
    destruct (String.eqb x "all") eqn:E; simpl.
    + apply String.eqb_eq in E. split; [|reflexivity].
      intros _ y [= <-] _ Hall. now contradiction Hall.
    + apply String.eqb_neq in E. rewrite strict_eq_spec. split.
      * now intros H y [= <-] _ _.
      * intros H. now apply H.
  - apply given_none in G. split; [|reflexivity]. intros _ x Hx Hne.
    destruct G as [G|G]; rewrite G in Hx; [discriminate|].
    injection Hx as <-. now contradiction Hne.
Qed.

Lemma keeps_spec {lc : Casing} (f : optional ContactFilters) (c : Contact) :
  keeps f c = true <-> satisfies f c.
Proof.
  unfold keeps, satisfies. rewrite !andb_true_iff.
  rewrite keeps_search_spec, !keeps_exact_spec. tauto.
Qed.

(** *** Case on ASCII text *)

Lemma lower_ascii_code (c : ascii) :
  nat_of_ascii (lower_ascii c) =
  if (Nat.leb 65 (nat_of_ascii c) && Nat.leb (nat_of_ascii c) 90)%bool
  then (nat_of_ascii c + 32)%nat else nat_of_ascii c.
Proof.
  unfold lower_ascii.
  destruct (Nat.leb 65 (nat_of_ascii c) && Nat.leb (nat_of_ascii c) 90)%bool eqn:E;
    [|reflexivity].
  apply andb_true_iff in E. destruct E as [_ E]. apply Nat.leb_le in E.
  apply nat_ascii_embedding. lia.
Qed.

Lemma nat_of_ascii_inj (c d : ascii) : nat_of_ascii c = nat_of_ascii d -> c = d.
Proof.
  intros H. rewrite <- (ascii_nat_embedding c), <- (ascii_nat_embedding d).
  now rewrite H.
Qed.

(** Two characters are the same letter exactly when they have the same
    lower case. *)
Lemma same_letter_spec (c d : ascii) :
  same_letter c d = true <-> lower_ascii c = lower_ascii d.
Proof.
  split.
  - intros H. apply nat_of_ascii_inj. rewrite !lower_ascii_code.
    unfold same_letter in H.
    destruct (Nat.leb 65 (nat_of_ascii c)) eqn:C1,
             (Nat.leb (nat_of_ascii c) 90) eqn:C2,
             (Nat.leb 65 (nat_of_ascii d)) eqn:D1,
             (Nat.leb (nat_of_ascii d) 90) eqn:D2;
      cbn [andb orb] in *;
      rewrite ?orb_false_r, ?orb_true_iff in H;
      repeat match goal with
             | H : _ \/ _ |- _ => destruct H
             | H : Nat.eqb _ _ = true |- _ => apply Nat.eqb_eq in H
             | H : Nat.leb _ _ = true |- _ => apply Nat.leb_le in H
             | H : Nat.leb _ _ = false |- _ => apply Nat.leb_gt in H
             end; lia.
  - intros H. apply (f_equal nat_of_ascii) in H. rewrite !lower_ascii_code in H.
    unfold same_letter.
    destruct (Nat.leb 65 (nat_of_ascii c)) eqn:C1,
             (Nat.leb (nat_of_ascii c) 90) eqn:C2,
             (Nat.leb 65 (nat_of_ascii d)) eqn:D1,
             (Nat.leb (nat_of_ascii d) 90) eqn:D2;
      cbn [andb orb] in *;
      rewrite ?orb_false_r, ?orb_true_iff;
      repeat match goal with
             | H : Nat.leb _ _ = true |- _ => apply Nat.leb_le in H
             | H : Nat.leb _ _ = false |- _ => apply Nat.leb_gt in H
             end;
      rewrite ?Nat.eqb_eq; lia.
Qed.

Lemma same_ignoring_case_spec (a b : string) :
  same_ignoring_case a b = true <-> ascii_toLowerCase a = ascii_toLowerCase b.
Proof.
  revert b. induction a as [|c a IH]; intros [|d b]; simpl;
    try (split; [reflexivity | reflexivity]); try (split; discriminate).
  rewrite andb_true_iff, same_letter_spec, IH. split.
  - intros [-> ->]. reflexivity.
  - intros [= H1 H2]. now split.
Qed.

Lemma ascii_toLowerCase_app (a b : string) :
  ascii_toLowerCase (a ++ b) = ascii_toLowerCase a ++ ascii_toLowerCase b.
Proof. induction a as [|c a IH]; simpl; [reflexivity | now rewrite IH]. Qed.

(** A splitting of the lower-cased text comes from a splitting of the
    text. *)
Lemma ascii_toLowerCase_split (s x y : string) :
  ascii_toLowerCase s = x ++ y ->
  exists s1 s2, s = s1 ++ s2 /\
                ascii_toLowerCase s1 = x /\ ascii_toLowerCase s2 = y.
Proof.
  revert s. induction x as [|c x IH]; intros s H.
  - exists EmptyString, s. now repeat split.
  - destruct s as [|d s]; [discriminate|]. simpl in H.
    injection H as Hc Hs. destruct (IH s Hs) as [s1 [s2 [-> [H1 H2]]]].
    exists (String d s1), s2. repeat split; [|exact H2].
    simpl. now rewrite Hc, H1.
Qed.

(** Under the ASCII lower-casing, a case-insensitive substring is a
    substring but for the case of letters. *)
Lemma ascii_ci_substring (q s : string) :
  (exists pre post,
     ascii_toLowerCase s = pre ++ ascii_toLowerCase q ++ post) <->
  occurs_ignoring_case q s.
Proof.
  unfold occurs_ignoring_case. split.
  - intros [pre [post H]].
    destruct (ascii_toLowerCase_split _ _ _ H) as [s1 [s' [-> [H1 H']]]].
    destruct (ascii_toLowerCase_split _ _ _ H') as [mid [s3 [-> [H2 H3]]]].
    exists s1, mid, s3. split; [reflexivity|].
    apply same_ignoring_case_spec. now symmetry.
  - intros [pre [mid [post [-> H]]]]. apply same_ignoring_case_spec in H.
    exists (ascii_toLowerCase pre), (ascii_toLowerCase post).
    now rewrite !ascii_toLowerCase_app, H.
Qed.

(** C3, as stated, fails: an empty filter string is not compared at all.
    With [status] given as the empty string the contact of [s_ann], whose
    status is "active", is returned. *)
Lemma getContacts_empty_status_not_exact :
  ~ (forall (lc : Casing) (s : MemStorage) (f : optional ContactFilters)
            (c : Contact),
       In c (getContacts s f) <->
       In c (Map_values (contacts s)) /\ satisfies_all_only f c).
Proof.
  intros H.
  pose (f := Some {| search := None; f_company := None; f_status := Some EmptyString |}).
  pose (c := fst (createContact "c1" 1000
                    (Sample.newContact "Ann" "ann@acme.example" (Some "active")) empty)).
  destruct (H asciiCasing Sample.s_ann f c) as [H1 _].
  destruct H1 as [_ [_ [_ Hst]]]; [left; reflexivity|].
  specialize (Hst EmptyString eq_refl). discriminate Hst. discriminate.
Qed.

(** C3, amended: [getContacts] returns exactly the contacts that satisfy
    the conjunction of the provided filters, each as often as it is stored:
    [search] matches when the search string is a case-insensitive substring
    of the name, of the email or of a present company; [company] and
    [status] filter by exact equality; a filter given as the empty string,
    and a [company] or [status] of "all", apply no filter. Case is that of
    the engine's [toLowerCase]; on ASCII text a case-insensitive substring
    is a substring but for the case of the letters A to Z. In particular a
    [status] of "all" gives the list that no [status] gives. *)
Theorem getContacts_filters {lc : Casing} (s : MemStorage)
    (f : optional ContactFilters) :
  (exists keep : Contact -> bool,
     (forall c, keep c = true <-> satisfies f c) /\
     Permutation (getContacts s f) (filter keep (Map_values (contacts s)))) /\
  (forall c, In c (getContacts s f) <->
             In c (Map_values (contacts s)) /\ satisfies f c) /\
  (lowers_ascii lc ->
   forall q t, is_ascii q = true -> is_ascii t = true ->
               (ci_substring q t <-> occurs_ignoring_case q t)) /\
  (forall q co,
     getContacts s (Some {| search := q; f_company := co; f_status := Some "all" |}) =
     getContacts s (Some {| search := q; f_company := co; f_status := None |})) /\
  getContacts s (Some {| search := None; f_company := None; f_status := Some "all" |}) =
  getContacts s None.
Proof.
  split; [|split; [|split; [|split]]].
  - exists (keeps f). split; [apply keeps_spec|].
    rewrite getContacts_keeps. apply Permutation_sym.
    apply (Array_sort_perm updatedAt).
  - intros c. rewrite getContacts_keeps.
    rewrite (Array_sort_In updatedAt), filter_In, keeps_spec. reflexivity.
  - intros Hlc q t Hq Ht. unfold ci_substring.
    rewrite (Hlc q Hq), (Hlc t Ht). apply ascii_ci_substring.
  - reflexivity.
  - reflexivity.
Qed.

Lemma getContacts_filters_witness :
  In (fst (createContact "c1" 1000
             (Sample.newContact "Ann" "ann@acme.example" (Some "active")) empty))
     (getContacts (lc := asciiCasing) Sample.s_two
        (Some {| search := Some "ACME"; f_company := None; f_status := Some "all" |})) /\
  (ci_substring (lc := asciiCasing) "ACME" "Acme Corp" <->
   occurs_ignoring_case "ACME" "Acme Corp").
Proof.
  destruct (getContacts_filters (lc := asciiCasing) Sample.s_two
              (Some {| search := Some "ACME"; f_company := None;
                       f_status := Some "all" |}))
    as [_ [Hin [Hci _]]].
  split.
  - apply Hin. split; [left; reflexivity|].
    split; [|split].
    + intros q [= <-] _. right. left.
      exists "ann@", ".example". reflexivity.
    + discriminate.
    + intros st [= <-] _ Hall. now contradiction Hall.
  - apply Hci; [intros t _; reflexivity | reflexivity | reflexivity].
Defined.

(** The search of the specification's example: "ACME" finds the contact
    of company "Acme Corp" and not the other one. *)
Example getContacts_search_ACME :
  map name (getContacts (lc := asciiCasing) Sample.s_two
              (Some {| search := Some "ACME"; f_company := None; f_status := None |}))
  = ["Bob"; "Ann"] /\
  map name (getContacts (lc := asciiCasing) Sample.s_two
              (Some {| search := Some "CORP"; f_company := None; f_status := None |}))
  = ["Bob"].
Proof. split; reflexivity. Qed.

(** C4: the list returned by [getContacts] is sorted by [updatedAt],
    latest first: of two elements, the one earlier in the list has an
    [updatedAt] at least that of the later one. *)
Theorem getContacts_sorted {lc : Casing} (s : MemStorage)
    (f : optional ContactFilters) :
  StronglySorted (fun a b => updatedAt a >= updatedAt b) (getContacts s f) /\
  (forall l1 a l2 b l3,
     getContacts s f = (l1 ++ a :: l2 ++ b :: l3)%list ->
     updatedAt a >= updatedAt b).
Proof.
  assert (Hs : StronglySorted (fun a b => updatedAt a >= updatedAt b)
                 (getContacts s f)).
  { rewrite getContacts_keeps.
    generalize (Array_sort_sorted updatedAt (filter (keeps f) (Map_values (contacts s)))).
    apply StronglySorted_ind with
      (P := fun l => StronglySorted (fun a b => updatedAt a >= updatedAt b) l).
    - constructor.
    - intros a l _ IH Hall. constructor; [exact IH|].
      eapply Forall_impl; [|exact Hall]. intros b Hb. simpl in Hb. lia. }
  split; [exact Hs|].
  intros l1 a l2 b l3 E. rewrite E in Hs.
  exact (StronglySorted_split _ _ _ _ _ _ Hs).
Qed.

Lemma getContacts_sorted_witness :
  StronglySorted (fun a b => updatedAt a >= updatedAt b)
    (getContacts (lc := asciiCasing) Sample.s_two None) /\
  (forall l1 a l2 b l3,
     getContacts (lc := asciiCasing) Sample.s_two None =
       (l1 ++ a :: l2 ++ b :: l3)%list ->
     updatedAt a >= updatedAt b).
Proof. exact (getContacts_sorted (lc := asciiCasing) Sample.s_two None). Defined.

(** C10: an empty filter string is an absent filter. [getContacts] with
    [search], [company] or [status] empty returns the list it returns
    without that filter, and [getActivities] of the empty string returns
    the list of [getActivities()], every activity whatever its
    [contactId]. *)
Theorem empty_filter_is_absent {lc : Casing} (s : MemStorage) :
  (forall co st,
     getContacts s (Some {| search := Some EmptyString; f_company := co; f_status := st |}) =
     getContacts s (Some {| search := None; f_company := co; f_status := st |})) /\
  (forall q st,
     getContacts s (Some {| search := q; f_company := Some EmptyString; f_status := st |}) =
     getContacts s (Some {| search := q; f_company := None; f_status := st |})) /\
  (forall q co,
     getContacts s (Some {| search := q; f_company := co; f_status := Some EmptyString |}) =
     getContacts s (Some {| search := q; f_company := co; f_status := None |})) /\
  getActivities s (Some EmptyString) = getActivities s None /\
  (forall a, In a (Map_values (activities s)) <-> In a (getActivities s (Some EmptyString))).
Proof.
  repeat split; intros H.
  - apply (proj2 (Array_sort_In activity_createdAt _ _)). exact H.
  - apply (proj1 (Array_sort_In activity_createdAt _ _)) in H. exact H.
Qed.

(** ** [createContact] and [updateContact] *)

(** C5: the contact returned by [createContact] has [createdAt] equal to
    [updatedAt]; [title], [phone], [company] and [notes] are [null] when
    the input omits them; and [getContact] on its id, right after, returns
    that very record. *)
Theorem createContact_roundtrip (cid : string) (now : Z) (data : InsertContact)
    (s : MemStorage) :
  createdAt (fst (createContact cid now data s)) =
    updatedAt (fst (createContact cid now data s)) /\
  (ic_title data = None -> title (fst (createContact cid now data s)) = None) /\
  (ic_phone data = None -> phone (fst (createContact cid now data s)) = None) /\
  (ic_company data = None -> company (fst (createContact cid now data s)) = None) /\
  (ic_notes data = None -> notes (fst (createContact cid now data s)) = None) /\
  getContact (snd (createContact cid now data s))
             (id (fst (createContact cid now data s))) =
    Some (fst (createContact cid now data s)).
Proof.
  unfold createContact, getContact. cbn [fst snd contacts id].
  repeat split; try (intros H; simpl; now rewrite H).
  apply Map_get_set_same.
Qed.

Lemma createContact_roundtrip_witness :
  createdAt (fst (createContact "c7" 7000 (Sample.newContact "Eve" "eve@mail.example" None) Sample.s_two)) = 7000 /\
  title (fst (createContact "c7" 7000 (Sample.newContact "Eve" "eve@mail.example" None) Sample.s_two)) = None /\
  option_map name (getContact (snd (createContact "c7" 7000 (Sample.newContact "Eve" "eve@mail.example" None) Sample.s_two)) "c7") = Some "Eve".
Proof.
  destruct (createContact_roundtrip "c7" 7000
              (Sample.newContact "Eve" "eve@mail.example" None) Sample.s_two)
    as [_ [Ht [_ [_ [_ Hg]]]]].
  split; [reflexivity|]. split; [exact (Ht eq_refl)|].
  cbn [id fst createContact] in Hg. now rewrite Hg.
Defined.

(** C9 does not hold of [createContact]: the record is spread from the
    input, nothing supplies the default of the [status] column, and a
    contact created without a status has none. It is then no "prospect"
    for [getMetrics] either. *)
Example createContact_without_status :
  status (fst (createContact "c1" 1000 (Sample.newContact "Ann" "ann@acme.example" None) empty)) = None /\
  option_map status
    (getContact (snd (createContact "c1" 1000 (Sample.newContact "Ann" "ann@acme.example" None) empty)) "c1") = Some None /\
  activeLeads
    (getMetrics utc 1000
       (snd (createContact "c1" 1000 (Sample.newContact "Ann" "ann@acme.example" None) empty))) = 0.
Proof. repeat split. Qed.

(** C6, as stated, fails: [id] and [createdAt] are spread from the update
    like every other key, so an update object that carries them overwrites
    them. *)
Lemma updateContact_overwrites_id :
  ~ (forall (now : Z) (cid : string) (u : ContactUpdate) (s : MemStorage)
            (existing updated : Contact),
       getContact s cid = Some existing ->
       fst (updateContact now cid u s) = Some updated ->
       id updated = id existing /\ createdAt updated = createdAt existing).
Proof.
  intros H.
  pose (u := {| cu_name := None; cu_email := None; cu_phone := None;
                cu_company := None; cu_title := None; cu_status := None;
                cu_notes := None; cu_id := Some "c9"; cu_createdAt := Some 5;
                cu_updatedAt := None |}).
  destruct (H 3000 "c1" u Sample.s_ann _ _ eq_refl eq_refl) as [Hid _].
  discriminate Hid.
Qed.

(** C6, amended: for an id that is not present [updateContact] returns
    nothing and changes nothing. For a present one it stores and returns
    the merge: every field that the update does not carry is unchanged,
    [id] and [createdAt] among them (the update type declares neither; an
    object that carries one overwrites it), and [updatedAt] is the time of
    the call, at least the previous [updatedAt] when the clock has not gone
    back. *)
Theorem updateContact_merge (now : Z) (cid : string) (u : ContactUpdate)
    (s : MemStorage) :
  (getContact s cid = None -> updateContact now cid u s = (None, s)) /\
  (forall existing, getContact s cid = Some existing ->
     exists updated,
       fst (updateContact now cid u s) = Some updated /\
       getContact (snd (updateContact now cid u s)) cid = Some updated /\
       (cu_id u = None -> id updated = id existing) /\
       (cu_createdAt u = None -> createdAt updated = createdAt existing) /\
       (forall v, cu_id u = Some v -> id updated = v) /\
       (forall v, cu_createdAt u = Some v -> createdAt updated = v) /\
       (cu_name u = None -> name updated = name existing) /\
       (cu_email u = None -> email updated = email existing) /\
       (cu_phone u = None -> phone updated = phone existing) /\
       (cu_company u = None -> company updated = company existing) /\
       (cu_title u = None -> title updated = title existing) /\
       (cu_status u = None -> status updated = status existing) /\
       (cu_notes u = None -> notes updated = notes existing) /\
       updatedAt updated = now /\
       (updatedAt existing <= now -> updatedAt updated >= updatedAt existing)).
Proof.
  unfold getContact, updateContact. split.
  - intros H. now rewrite H.
  - intros existing H. rewrite H. eexists. cbn [fst snd contacts].
    split; [reflexivity|]. split; [apply Map_get_set_same|].
    cbn [id name email phone company title status notes createdAt updatedAt].
    repeat split; try (intros E; now rewrite E); try (intros v E; now rewrite E).
    lia.
Qed.

Lemma updateContact_merge_witness :
  updateContact 3000 "nobody" Sample.noUpdate Sample.s_ann = (None, Sample.s_ann) /\
  exists updated,
    fst (updateContact 3000 "c1" Sample.noUpdate Sample.s_ann) = Some updated /\
    id updated = "c1" /\ createdAt updated = 1000 /\ updatedAt updated = 3000.
Proof.
  split.
  - exact (proj1 (updateContact_merge 3000 "nobody" Sample.noUpdate Sample.s_ann) eq_refl).
  - destruct (proj2 (updateContact_merge 3000 "c1" Sample.noUpdate Sample.s_ann) _ eq_refl)
      as [updated [H1 [_ [H3 [H4 [_ [_ [_ [_ [_ [_ [_ [_ [_ [H5 _]]]]]]]]]]]]]]].
    exists updated. split; [exact H1|].
    split; [exact (H3 eq_refl)|]. split; [exact (H4 eq_refl) | exact H5].
Defined.

(** ** [getMetrics] *)

Lemma len_nonneg {A} (l : list A) : 0 <= len l.
Proof. unfold len. lia. Qed.

Lemma len_app {A} (l1 l2 : list A) : len (l1 ++ l2)%list = len l1 + len l2.
Proof. unfold len. rewrite length_app. lia. Qed.

Lemma filter_perm {A} (f : A -> bool) (l l' : list A) :
  Permutation l l' -> Permutation (filter f l) (filter f l').
Proof.
  induction 1 as [|x l l' _ IH|x y l|l l' l'' _ IH1 _ IH2]; simpl.
  - constructor.
  - destruct (f x); [now constructor | exact IH].
  - destruct (f x), (f y); try apply Permutation_refl. apply perm_swap.
  - eapply Permutation_trans; eassumption.
Qed.

(** The number of contacts with a status is read off the list of the
    statuses, in whatever order. *)
Lemma count_by_statuses (st : string) (cs : list Contact)
    (sts : list (optional string)) :
  Permutation (map status cs) sts ->
  len (filter (has_status st) cs) = len (filter (fun o => strict_eq o st) sts).
Proof.
  intros HP. unfold len. f_equal.
  rewrite <- (Permutation_length (filter_perm (fun o => strict_eq o st) _ _ HP)).
  clear HP. induction cs as [|c cs IH]; simpl; [reflexivity|].
  unfold has_status at 1. destruct (strict_eq (status c) st); simpl; now rewrite IH.
Qed.

Lemma getMetrics_rate (tz : Zone) (now : Z) (s : MemStorage) :
  conversionRate (getMetrics tz now s) =
  round1 (rate (count_status "active" s) (len (Map_values (contacts s)))).
Proof. reflexivity. Qed.

(** ** Doubles as real numbers

    What the operations of [SpecFloat] do to the value of a double, as far
    as the conversion rate needs it: positive normal doubles of moderate
    exponent, a division, two products and [Math.round]. *)

Lemma digits2_pos_size (p : positive) : digits2_pos p = Pos.size p.
Proof. induction p; simpl; congruence. Qed.

Lemma Zdigits2_log2 (p : positive) : Zdigits2 (Zpos p) = Z.log2 (Zpos p) + 1.
Proof.
  simpl. rewrite digits2_pos_size. destruct p; simpl; lia.
Qed.

Lemma Zdigits2_bounds (m L : Z) :
  0 <= L -> 2 ^ L <= m < 2 ^ (L + 1) -> Zdigits2 m = L + 1.
Proof.
  intros HL Hm. assert (0 < m) by (pose proof (Z.pow_pos_nonneg 2 L); lia).
  destruct m as [|p|p]; try lia.
  rewrite Zdigits2_log2. f_equal. apply Z.log2_unique; lia.
Qed.

Lemma shr_1_div2 (mrs : shr_record) :
  0 <= shr_m mrs -> shr_m (shr_1 mrs) = shr_m mrs / 2.
Proof.
  destruct mrs as [m r s]. simpl. intros Hm. rewrite <- Z.div2_div.
  destruct m as [|[p|p|]|p]; simpl; try reflexivity; lia.
Qed.

Lemma pow2_xI (p : positive) : 2 ^ Z.pos p~1 = 2 * 2 ^ Z.pos p * 2 ^ Z.pos p.
Proof.
  replace (Z.pos p~1) with (1 + Z.pos p + Z.pos p) by lia.
  rewrite !Z.pow_add_r by lia. reflexivity.
Qed.

Lemma pow2_xO (p : positive) : 2 ^ Z.pos p~0 = 2 ^ Z.pos p * 2 ^ Z.pos p.
Proof.
  replace (Z.pos p~0) with (Z.pos p + Z.pos p) by lia.
  rewrite !Z.pow_add_r by lia. reflexivity.
Qed.

Lemma shr_iter_div (p : positive) (mrs : shr_record) :
  0 <= shr_m mrs ->
  shr_m (SpecFloat.iter_pos shr_1 p mrs) = shr_m mrs / 2 ^ Zpos p.
Proof.
  revert mrs. induction p as [p IH|p IH|]; intros mrs Hm; simpl SpecFloat.iter_pos.
  - assert (H1 : 0 <= shr_m (shr_1 mrs)).
    { rewrite shr_1_div2 by lia. apply Z.div_pos; lia. }
    assert (H2 : 0 <= shr_m (SpecFloat.iter_pos shr_1 p (shr_1 mrs))).
    { rewrite IH by lia. apply Z.div_pos; lia. }
    rewrite IH, IH, shr_1_div2 by lia.
    rewrite !Z.div_div by lia. f_equal. rewrite pow2_xI. lia.
  - assert (H2 : 0 <= shr_m (SpecFloat.iter_pos shr_1 p mrs)).
    { rewrite IH by lia. apply Z.div_pos; lia. }
    rewrite IH, IH by lia.
    rewrite !Z.div_div by lia. f_equal. rewrite pow2_xO. lia.
  - rewrite shr_1_div2 by lia. reflexivity.
Qed.

Lemma fexp_normal (x : Z) : -1021 <= x -> fexp 53 1024 x = x - 53.
Proof. unfold fexp, emin. lia. Qed.

Lemma shr_record_of_loc_m (m : Z) (l : location) :
  shr_m (shr_record_of_loc m l) = m.
Proof. destruct l as [|[]]; reflexivity. Qed.

Lemma shr_value (mrs : shr_record) (e n : Z) :
  0 <= shr_m mrs -> 0 <= n ->
  shr_m (fst (shr mrs e n)) = shr_m mrs / 2 ^ n /\ snd (shr mrs e n) = e + n.
Proof.
  intros Hm Hn. destruct n as [|p|p]; simpl.
  - rewrite Z.div_1_r. split; [reflexivity | lia].
  - split; [now apply shr_iter_div | reflexivity].
  - lia.
Qed.

Lemma round_nearest_even_range (mx : Z) (lx : location) :
  mx <= round_nearest_even mx lx <= mx + 1.
Proof. destruct lx as [|[]]; simpl; try destruct (Z.even mx); lia. Qed.

Lemma pow2_pos (n : Z) : 0 <= n -> 0 < 2 ^ n.
Proof. intros. apply Z.pow_pos_nonneg; lia. Qed.

Lemma div_pow2_range (m L : Z) :
  52 <= L -> 2 ^ L <= m < 2 ^ (L + 1) ->
  2 ^ 52 <= m / 2 ^ (L - 52) < 2 ^ 53.
Proof.
  intros HL [H1 H2]. pose proof (pow2_pos (L - 52) ltac:(lia)) as Hp.
  assert (E1 : 2 ^ L = 2 ^ (L - 52) * 2 ^ 52)
    by (rewrite <- Z.pow_add_r by lia; f_equal; lia).
  assert (E2 : 2 ^ (L + 1) = 2 ^ (L - 52) * 2 ^ 53)
    by (rewrite <- Z.pow_add_r by lia; f_equal; lia).
  split.
  - apply Z.div_le_lower_bound; lia.
  - apply Z.div_lt_upper_bound; lia.
Qed.

Lemma binary_round_aux_pos (m e L : Z) (l : location) :
  52 <= L -> 2 ^ L <= m < 2 ^ (L + 1) -> -1000 <= L + e <= 900 ->
  exists m' e' m2,
    binary_round_aux 53 1024 false m e l = S754_finite false m' e' /\
    2 ^ 52 <= Zpos m' < 2 ^ 53 /\
    m / 2 ^ (L - 52) <= m2 <= m / 2 ^ (L - 52) + 1 /\
    (l = loc_Exact -> L = 52 -> m2 = m) /\
    ((Zpos m' = m2 /\ e' = e + L - 52) \/
     (2 * Zpos m' = m2 /\ e' = e + L - 51)).
Proof.
  intros HL Hm He.
  pose proof (div_pow2_range m L HL Hm) as Hm1.
  assert (Hmpos : 0 < m) by (pose proof (pow2_pos L ltac:(lia)); lia).
  unfold binary_round_aux, shr_fexp.
  rewrite (Zdigits2_bounds m L) by lia.
  rewrite fexp_normal by lia.
  replace (L + 1 + e - 53 - e) with (L - 52) by lia.
  destruct (shr_value (shr_record_of_loc m l) e (L - 52)) as [Hv He1];
    [rewrite shr_record_of_loc_m; lia | lia |].
  rewrite shr_record_of_loc_m in Hv.
  destruct (shr (shr_record_of_loc m l) e (L - 52)) as [mrs1 e1] eqn:E1.
  cbn [fst snd] in Hv, He1. subst e1.
  set (m2 := round_nearest_even (shr_m mrs1) (loc_of_shr_record mrs1)).
  pose proof (round_nearest_even_range (shr_m mrs1) (loc_of_shr_record mrs1)) as Hr.
  fold m2 in Hr. rewrite Hv in Hr.
  assert (Hexact : l = loc_Exact -> L = 52 -> m2 = m).
  { intros -> ->. simpl in E1. injection E1 as <-. reflexivity. }
  assert (Hcase : m2 < 2 ^ 53 \/ m2 = 2 ^ 53) by lia.
  destruct Hcase as [Hlt|Heq].
  - rewrite (Zdigits2_bounds m2 52) by lia.
    rewrite fexp_normal by lia.
    replace (52 + 1 + (e + (L - 52)) - 53 - (e + (L - 52))) with 0 by lia.
    cbn [shr shr_record_of_loc shr_m].
    destruct m2 as [|p|p] eqn:Em2; try lia.
    assert (Hle : (e + (L - 52) <=? 1024 - 53) = true) by (apply Z.leb_le; lia).
    rewrite Hle. exists p, (e + (L - 52)), (Zpos p).
    repeat split; try lia. exact Hexact.
  - rewrite (Zdigits2_bounds m2 53) by lia.
    rewrite fexp_normal by lia.
    replace (53 + 1 + (e + (L - 52)) - 53 - (e + (L - 52))) with 1 by lia.
    rewrite Heq. cbn.
    assert (Hle : (e + (L - 52) + 1 <=? 971) = true) by (apply Z.leb_le; lia).
    rewrite Hle. eexists _, _, m2.
    split; [reflexivity|]. split; [simpl; lia|]. split; [lia|].
    split; [exact Hexact|]. right. rewrite Heq. split; [reflexivity | lia].
Qed.


Lemma IZR_pow2 (n : Z) : 0 <= n -> IZR (2 ^ n) = powerRZ 2 n.
Proof.
  intros Hn. rewrite <- (Z2Nat.id n Hn) at 1 2.
  rewrite <- pow_IZR, <- pow_powerRZ. reflexivity.
Qed.

Lemma powerRZ2_pos (e : Z) : (0 < powerRZ 2 e)%R.
Proof. apply powerRZ_lt. lra. Qed.

Lemma F2R_shift (x e n : Z) : 0 <= n -> F2R x (e + n) = F2R (x * 2 ^ n) e.
Proof.
  intros Hn. unfold F2R. rewrite powerRZ_add by lra.
  rewrite mult_IZR, IZR_pow2 by lia. ring.
Qed.

Lemma F2R_le (x y e : Z) : x <= y -> (F2R x e <= F2R y e)%R.
Proof.
  intros H. unfold F2R. apply Rmult_le_compat_r.
  - left. apply powerRZ2_pos.
  - now apply IZR_le.
Qed.

Lemma F2R_pos (x e : Z) : 0 < x -> (0 < F2R x e)%R.
Proof.
  intros H. unfold F2R. apply Rmult_lt_0_compat.
  - now apply IZR_lt.
  - apply powerRZ2_pos.
Qed.

Lemma F2R_sub (x y e : Z) : (F2R x e - F2R y e = F2R (x - y) e)%R.
Proof. unfold F2R. rewrite minus_IZR. ring. Qed.

(** The value after rounding is within one part in [2^52] of the value
    before. *)
Lemma binary_round_aux_R (m e L : Z) (l : location) :
  52 <= L -> 2 ^ L <= m < 2 ^ (L + 1) -> -1000 <= L + e <= 900 ->
  exists m' e',
    binary_round_aux 53 1024 false m e l = S754_finite false m' e' /\
    2 ^ 52 <= Zpos m' < 2 ^ 53 /\
    L + e - 52 <= e' <= L + e - 51 /\
    (Rabs (F2R (Zpos m') e' - F2R m e) <= F2R m e * eps)%R /\
    (l = loc_Exact -> L = 52 -> Zpos m' = m /\ e' = e).
Proof.
  intros HL Hm He.
  destruct (binary_round_aux_pos m e L l HL Hm He)
    as [m' [e' [m2 [E [Hc [Hm2 [Hex Hcase]]]]]]].
  exists m', e'. split; [exact E|]. split; [exact Hc|].
  split; [lia|]. split.
  - set (n := L - 52) in *.
    pose proof (pow2_pos n ltac:(lia)) as Hp.
    assert (Eval : F2R (Zpos m') e' = F2R (m2 * 2 ^ n) e).
    { destruct Hcase as [[<- ->]|[<- ->]].
      - replace (e + L - 52) with (e + n) by lia. apply F2R_shift. lia.
      - replace (e + L - 51) with (e + (n + 1)) by lia.
        rewrite F2R_shift by lia. f_equal.
        rewrite Z.pow_add_r by lia. lia. }
    rewrite Eval, F2R_sub.
    pose proof (Z.mul_div_le m (2 ^ n) Hp) as Hfl1.
    pose proof (Z.mul_succ_div_gt m (2 ^ n) Hp) as Hfl2.
    assert (EL : 2 ^ L = 2 ^ n * 2 ^ 52)
      by (rewrite <- Z.pow_add_r by lia; f_equal; lia).
    assert (Hd : Z.abs (m2 * 2 ^ n - m) * 2 ^ 52 <= m) by nia.
    unfold F2R, eps. rewrite Rabs_mult, (Rabs_pos_eq (powerRZ 2 e))
      by (left; apply powerRZ2_pos).
    rewrite <- abs_IZR.
    apply IZR_le in Hd. rewrite mult_IZR in Hd.
    change (2 ^ 52) with 4503599627370496 in Hd.
    pose proof (powerRZ2_pos e) as Hpe.
    assert (IZR (Z.abs (m2 * 2 ^ n - m)) <= IZR m * / 4503599627370496)%R by lra.
    nra.
  - intros H1 H2. specialize (Hex H1 H2). subst L.
    destruct Hcase as [[H3 ->]|[H3 ->]]; [split; lia|].
    exfalso. lia.
Qed.

Lemma Pos_iter_xO (p d : positive) :
  Zpos (Pos.iter xO p d) = Zpos p * 2 ^ Zpos d.
Proof.
  induction d as [|d IH] using Pos.peano_ind.
  - simpl. lia.
  - rewrite Pos.iter_succ, Pos2Z.inj_xO, IH, Pos2Z.inj_succ, Z.pow_succ_r by lia.
    lia.
Qed.


(** An integer below [2^53] is a double, exactly. *)
Lemma of_Z_normal (z : Z) :
  1 <= z < 2 ^ 53 ->
  exists m, of_Z z = S754_finite false m (Z.log2 z - 52) /\
            Zpos m = z * 2 ^ (52 - Z.log2 z).
Proof.
  intros Hz. destruct z as [|p|p]; try lia.
  pose proof (Z.log2_spec (Zpos p) ltac:(lia)) as Hl.
  pose proof (Z.log2_nonneg (Zpos p)) as Hl0.
  set (L0 := Z.log2 (Zpos p)) in *.
  assert (HL52 : L0 <= 52).
  { destruct (Z_le_gt_dec L0 52) as [|Hgt]; [assumption|].
    assert (2 ^ 53 <= 2 ^ L0) by (apply Z.pow_le_mono_r; lia). lia. }
  unfold of_Z, prec, emax, binary_normalize, binary_round.
  replace (Zpos (digits2_pos p)) with (Zdigits2 (Zpos p)) by reflexivity.
  rewrite Zdigits2_log2. fold L0. rewrite fexp_normal by lia.
  assert (Esh : exists mz, shl_align p 0 (L0 + 1 + 0 - 53) = (mz, L0 - 52) /\
                           Zpos mz = Zpos p * 2 ^ (52 - L0)).
  { unfold shl_align. destruct (L0 + 1 + 0 - 53 - 0) as [|d|d] eqn:Ed.
    - exists p. replace (52 - L0) with 0 by lia. split; [f_equal; lia | lia].
    - lia.
    - exists (Pos.iter xO p d). split; [f_equal; lia|].
      rewrite Pos_iter_xO. f_equal. f_equal. lia. }
  destruct Esh as [mz [-> Hmz]].
  pose proof (pow2_pos (52 - L0) ltac:(lia)) as Hp.
  assert (Hrange : 2 ^ 52 <= Zpos mz < 2 ^ (52 + 1)).
  { rewrite Hmz.
    replace (2 ^ 52) with (2 ^ L0 * 2 ^ (52 - L0))
      by (rewrite <- Z.pow_add_r by lia; f_equal; lia).
    replace (2 ^ (52 + 1)) with (2 ^ (Z.succ L0) * 2 ^ (52 - L0))
      by (rewrite <- Z.pow_add_r by lia; f_equal; lia).
    nia. }
  destruct (binary_round_aux_R (Zpos mz) (L0 - 52) 52 loc_Exact)
    as [m' [e' [E [_ [_ [_ Hex]]]]]]; [lia | exact Hrange | lia |].
  destruct (Hex eq_refl eq_refl) as [Hm' ->].
  exists m'. split; [exact E|]. rewrite Hm'. exact Hmz.
Qed.

Lemma of_Z_value (z : Z) (m : positive) :
  1 <= z < 2 ^ 53 -> Zpos m = z * 2 ^ (52 - Z.log2 z) ->
  F2R (Zpos m) (Z.log2 z - 52) = IZR z /\ 2 ^ 52 <= Zpos m < 2 ^ 53.
Proof.
  intros Hz Hm.
  pose proof (Z.log2_spec z ltac:(lia)) as Hl.
  pose proof (Z.log2_nonneg z) as Hl0.
  set (L0 := Z.log2 z) in *.
  assert (HL52 : L0 <= 52).
  { destruct (Z_le_gt_dec L0 52) as [|Hgt]; [assumption|].
    assert (2 ^ 53 <= 2 ^ L0) by (apply Z.pow_le_mono_r; lia). lia. }
  pose proof (pow2_pos (52 - L0) ltac:(lia)) as Hp.
  split.
  - rewrite Hm. rewrite <- (F2R_shift z (L0 - 52) (52 - L0)) by lia.
    replace (L0 - 52 + (52 - L0)) with 0 by lia. unfold F2R. simpl. ring.
  - rewrite Hm.
    replace (2 ^ 52) with (2 ^ L0 * 2 ^ (52 - L0))
      by (rewrite <- Z.pow_add_r by lia; f_equal; lia).
    replace (2 ^ 53) with (2 ^ (Z.succ L0) * 2 ^ (52 - L0))
      by (rewrite <- Z.pow_add_r by lia; f_equal; lia).
    nia.
Qed.

Lemma F2R_mul (mx ex my ey : Z) :
  (F2R mx ex * F2R my ey = F2R (mx * my) (ex + ey))%R.
Proof. unfold F2R. rewrite mult_IZR, powerRZ_add by lra. ring. Qed.

(** The product of two normal doubles of moderate exponent. *)
Lemma SFmul_normal (mx my : positive) (ex ey : Z) :
  2 ^ 52 <= Zpos mx < 2 ^ 53 -> 2 ^ 52 <= Zpos my < 2 ^ 53 ->
  -300 <= ex <= 300 -> -300 <= ey <= 300 ->
  exists m e,
    SFmul 53 1024 (S754_finite false mx ex) (S754_finite false my ey) =
      S754_finite false m e /\
    2 ^ 52 <= Zpos m < 2 ^ 53 /\
    ex + ey + 52 <= e <= ex + ey + 54 /\
    (Rabs (F2R (Zpos m) e - F2R (Zpos mx) ex * F2R (Zpos my) ey) <=
     F2R (Zpos mx) ex * F2R (Zpos my) ey * eps)%R.
Proof.
  intros Hx Hy Hex Hey. unfold SFmul. cbn [xorb].
  rewrite F2R_mul. rewrite Pos2Z.inj_mul.
  assert (Hprod : 2 ^ 104 <= Zpos mx * Zpos my < 2 ^ 106).
  { change (2 ^ 104) with (2 ^ 52 * 2 ^ 52).
    change (2 ^ 106) with (2 ^ 53 * 2 ^ 53). split.
    - apply Z.mul_le_mono_nonneg; lia.
    - apply Z.mul_lt_mono_nonneg; lia. }
  assert (Hcase : Zpos mx * Zpos my < 2 ^ 105 \/ 2 ^ 105 <= Zpos mx * Zpos my)
    by lia.
  destruct Hcase as [Hlt|Hge].
  - destruct (binary_round_aux_R (Zpos mx * Zpos my) (ex + ey) 104 loc_Exact)
      as [m [e [E [Hc [He [Hr _]]]]]];
      [lia | split; [exact (proj1 Hprod) | exact Hlt] | lia |].
    exists m, e. repeat split; try assumption; lia.
  - destruct (binary_round_aux_R (Zpos mx * Zpos my) (ex + ey) 105 loc_Exact)
      as [m [e [E [Hc [He [Hr _]]]]]];
      [lia | split; [exact Hge | exact (proj2 Hprod)] | lia |].
    exists m, e. repeat split; try assumption; lia.
Qed.

Lemma Rabs_bound (x b : R) : (Rabs x <= b -> - b <= x <= b)%R.
Proof. unfold Rabs. destruct (Rcase_abs x); lra. Qed.

Lemma SFdiv_core_normal (mx my : positive) (ex ey : Z) :
  2 ^ 52 <= Zpos mx < 2 ^ 53 -> 2 ^ 52 <= Zpos my < 2 ^ 53 ->
  -300 <= ex <= 300 -> -300 <= ey <= 300 ->
  exists q l,
    SFdiv_core_binary 53 1024 (Zpos mx) ex (Zpos my) ey = (q, ex - ey - 53, l) /\
    2 ^ 52 <= q < 2 ^ 54 /\
    q * Zpos my <= Zpos mx * 2 ^ 53 < (q + 1) * Zpos my.
Proof.
  intros Hx Hy Hex Hey. unfold SFdiv_core_binary.
  rewrite (Zdigits2_bounds (Zpos mx) 52), (Zdigits2_bounds (Zpos my) 52) by lia.
  rewrite fexp_normal by lia.
  rewrite Z.min_l by lia.
  replace (ex - ey - (52 + 1 + ex - (52 + 1 + ey) - 53)) with 53 by lia.
  cbv iota. rewrite Z.shiftl_mul_pow2 by lia.
  set (M := Zpos mx * 2 ^ 53).
  pose proof (Z_div_mod M (Zpos my) ltac:(lia)) as Hdm.
  destruct (Z.div_eucl M (Zpos my)) as [q r]. destruct Hdm as [HM Hr].
  exists q, (new_location (Zpos my) r). split.
  - f_equal. f_equal. lia.
  - assert (H1 : 2 ^ 52 * 2 ^ 53 <= M) by (unfold M; apply Z.mul_le_mono_nonneg; lia).
    assert (H2 : M < 2 ^ 53 * 2 ^ 53) by (unfold M; apply Z.mul_lt_mono_pos_r; lia).
    split; [|lia]. split.
    + assert (~ q < 2 ^ 52); [|lia]. intros Hq.
      assert ((q + 1) * Zpos my <= 2 ^ 52 * Zpos my)
        by (apply Z.mul_le_mono_nonneg_r; lia).
      assert (2 ^ 52 * Zpos my < 2 ^ 52 * 2 ^ 53)
        by (apply Z.mul_lt_mono_pos_l; lia).
      lia.
    + assert (~ 2 ^ 54 <= q); [|lia]. intros Hq.
      assert (2 ^ 54 * 2 ^ 52 <= q * Zpos my)
        by (apply Z.mul_le_mono_nonneg; lia).
      change (2 ^ 54 * 2 ^ 52) with (2 ^ 53 * 2 ^ 53) in *. lia.
Qed.

(** The quotient of two normal doubles of moderate exponent. *)
Lemma SFdiv_normal (mx my : positive) (ex ey : Z) :
  2 ^ 52 <= Zpos mx < 2 ^ 53 -> 2 ^ 52 <= Zpos my < 2 ^ 53 ->
  -300 <= ex <= 300 -> -300 <= ey <= 300 ->
  exists m e,
    SFdiv 53 1024 (S754_finite false mx ex) (S754_finite false my ey) =
      S754_finite false m e /\
    2 ^ 52 <= Zpos m < 2 ^ 53 /\
    ex - ey - 53 <= e <= ex - ey - 51 /\
    (Rabs (F2R (Zpos m) e - F2R (Zpos mx) ex / F2R (Zpos my) ey) <=
     2 * (F2R (Zpos mx) ex / F2R (Zpos my) ey) * eps)%R.
Proof.
  intros Hx Hy Hex Hey. unfold SFdiv. cbn [xorb].
  destruct (SFdiv_core_normal mx my ex ey Hx Hy Hex Hey)
    as [q [l [-> [Hq Hqm]]]].
  set (e0 := ex - ey - 53).
  set (V := (F2R (Zpos mx) ex / F2R (Zpos my) ey)%R).
  pose proof (powerRZ2_pos e0) as HP.
  (* the exact quotient lies between [q] and [q + 1] units *)
  assert (HV : (F2R q e0 <= V < F2R q e0 + powerRZ 2 e0)%R).
  { assert (EV : V = (IZR (Zpos mx * 2 ^ 53) / IZR (Zpos my) * powerRZ 2 e0)%R).
    { unfold V, F2R. replace ex with (ey + (53 + e0)) at 1 by (unfold e0; lia).
      rewrite !powerRZ_add by lra. rewrite mult_IZR, (IZR_pow2 53) by lia.
      field. repeat split;
        try (apply Rgt_not_eq, powerRZ2_pos);
        try (apply Rgt_not_eq, IZR_lt; lia). }
    assert (Hmy : (0 < IZR (Zpos my))%R) by (apply IZR_lt; lia).
    destruct Hqm as [Hq1 Hq2]. apply IZR_le in Hq1. apply IZR_lt in Hq2.
    rewrite (mult_IZR q (Zpos my)) in Hq1.
    rewrite (mult_IZR (q + 1) (Zpos my)), plus_IZR in Hq2.
    set (Mr := IZR (Zpos mx * 2 ^ 53)) in *.
    assert (Hlo : (IZR q <= Mr / IZR (Zpos my))%R).
    { apply Rmult_le_reg_r with (IZR (Zpos my)); [exact Hmy|].
      unfold Rdiv. rewrite Rmult_assoc, Rinv_l by lra. lra. }
    assert (Hhi : (Mr / IZR (Zpos my) < IZR q + 1)%R).
    { apply Rmult_lt_reg_r with (IZR (Zpos my)); [exact Hmy|].
      unfold Rdiv. rewrite Rmult_assoc, Rinv_l by lra. lra. }
    rewrite EV. unfold F2R. split.
    - apply Rmult_le_compat_r; lra.
    - replace (IZR q * powerRZ 2 e0 + powerRZ 2 e0)%R
        with ((IZR q + 1) * powerRZ 2 e0)%R by ring.
      apply Rmult_lt_compat_r; lra. }
  (* one unit is at most one part in [2^52] of the quotient *)
  assert (Hu : (powerRZ 2 e0 <= F2R q e0 * eps)%R).
  { unfold F2R, eps. destruct Hq as [Hq _]. apply IZR_le in Hq.
    change (2 ^ 52) with 4503599627370496 in Hq.
    assert (1 <= IZR q * / 4503599627370496)%R by lra.
    replace (IZR q * powerRZ 2 e0 * / 4503599627370496)%R
      with ((IZR q * / 4503599627370496) * powerRZ 2 e0)%R by ring.
    rewrite <- (Rmult_1_l (powerRZ 2 e0)) at 1.
    apply Rmult_le_compat_r; lra. }
  assert (Hcase : q < 2 ^ 53 \/ 2 ^ 53 <= q) by lia.
  assert (Hfin : exists m e,
             binary_round_aux 53 1024 false q e0 l = S754_finite false m e /\
             2 ^ 52 <= Zpos m < 2 ^ 53 /\
             e0 <= e <= e0 + 2 /\
             (Rabs (F2R (Zpos m) e - F2R q e0) <= F2R q e0 * eps)%R).
  { destruct Hcase as [Hlt|Hge].
    - destruct (binary_round_aux_R q e0 52 l)
        as [m [e [E [Hc [He [Hr _]]]]]];
        [lia | split; [exact (proj1 Hq) | exact Hlt] | unfold e0; lia |].
      exists m, e. repeat split; try assumption; lia.
    - destruct (binary_round_aux_R q e0 53 l)
        as [m [e [E [Hc [He [Hr _]]]]]];
        [lia | split; [exact Hge | exact (proj2 Hq)] | unfold e0; lia |].
      exists m, e. repeat split; try assumption; lia. }
  destruct Hfin as [m [e [E [Hc [He Hr]]]]].
  exists m, e. split; [exact E|]. split; [exact Hc|].
  split; [unfold e0 in He; lia|].
  assert (Hqpos : (0 < F2R q e0)%R) by (apply F2R_pos; lia).
  assert (Heps : (0 < eps)%R) by (unfold eps; lra).
  assert (Hmono : (F2R q e0 * eps <= V * eps)%R)
    by (apply Rmult_le_compat_r; lra).
  apply Rabs_le. apply Rabs_bound in Hr. lra.
Qed.


(** The three operations of the rate keep it within five parts in
    [2^52] of the exact value. *)
Lemma rate_chain (V Q X2 X3 : R) :
  (0 < V <= 1)%R ->
  (Rabs (Q - V) <= 2 * V * eps)%R ->
  (Rabs (X2 - Q * 100) <= Q * 100 * eps)%R ->
  (Rabs (X3 - X2 * 10) <= X2 * 10 * eps)%R ->
  (Rabs (X3 - 1000 * V) <= 5000 * eps)%R.
Proof.
  unfold eps. intros HV H1 H2 H3.
  apply Rabs_bound in H1, H2, H3. apply Rabs_le. lra.
Qed.

(** [Math.round] of a positive double below [2^52]. *)
Lemma Math_round_pos (m : positive) (e : Z) :
  e < 0 ->
  exists k, Math_round (S754_finite false m e) = of_Z k /\
            (IZR k - / 2 <= F2R (Zpos m) e < IZR k + / 2)%R.
Proof.
  intros He. unfold Math_round.
  assert (Hle : (0 <=? e) = false) by (apply Z.leb_gt; lia).
  rewrite Hle. cbv zeta.
  set (n := - e). assert (Hn : 0 < n) by (unfold n; lia).
  rewrite Z.shiftr_div_pow2, Z.shiftl_mul_pow2 by lia. rewrite Z.mul_1_l.
  set (k := (2 * Zpos m + 2 ^ n) / 2 ^ (n + 1)).
  exists k. split.
  - destruct (k =? 0) eqn:Ek; [|reflexivity].
    apply Z.eqb_eq in Ek. rewrite Ek. reflexivity.
  - pose proof (pow2_pos n ltac:(lia)) as Hp.
    assert (ED : 2 ^ (n + 1) = 2 * 2 ^ n)
      by (rewrite Z.pow_add_r by lia; lia).
    pose proof (Z.mul_div_le (2 * Zpos m + 2 ^ n) (2 ^ (n + 1)) ltac:(lia)) as H1.
    pose proof (Z.mul_succ_div_gt (2 * Zpos m + 2 ^ n) (2 ^ (n + 1)) ltac:(lia)) as H2.
    fold k in H1, H2. rewrite ED in H1, H2.
    assert (H1' : 2 ^ n * (2 * k - 1) <= 2 * Zpos m) by lia.
    assert (H2' : 2 * Zpos m < 2 ^ n * (2 * k + 1)) by lia.
    apply IZR_le in H1'. apply IZR_lt in H2'.
    rewrite !mult_IZR, minus_IZR, mult_IZR in H1'.
    rewrite !mult_IZR, plus_IZR, mult_IZR in H2'.
    assert (EP : F2R (Zpos m) e = (IZR (Zpos m) / IZR (2 ^ n))%R).
    { unfold F2R. replace e with (- n) by (unfold n; lia).
      rewrite powerRZ_neg', <- IZR_pow2 by lia. reflexivity. }
    rewrite EP. assert (HP : (0 < IZR (2 ^ n))%R) by (apply IZR_lt; lia).
    set (P := IZR (2 ^ n)) in *. set (M := IZR (Zpos m)) in *.
    split.
    + apply Rmult_le_reg_r with P; [exact HP|].
      unfold Rdiv. rewrite Rmult_assoc, Rinv_l by lra.
      nra.
    + apply Rmult_lt_reg_r with P; [exact HP|].
      unfold Rdiv. rewrite Rmult_assoc, Rinv_l by lra. nra.
Qed.

Lemma log2_lt_pow (z n : Z) : 1 <= z < 2 ^ n -> 0 <= n -> 0 <= Z.log2 z < n.
Proof.
  intros Hz Hn. split; [apply Z.log2_nonneg|].
  apply Z.log2_lt_pow2; lia.
Qed.

(** The rate, times ten and rounded, is an integer nearest to the exact
    [1000 * a / t]. *)
Lemma rate_tenths_all (a t : Z) :
  0 <= a <= t -> 1 <= t < 2 ^ 32 ->
  exists k,
    Math_round (num_mul (rate a t) (of_Z 10)) = of_Z k /\
    Z.abs (2000 * a - 2 * k * t) <= t.
Proof.
  intros Ha Ht. unfold rate.
  assert (Hpos : (0 <? t) = true) by (apply Z.ltb_lt; lia). rewrite Hpos.
  unfold num_mul, num_div, prec, emax.
  destruct (of_Z_normal t) as [mt [Et Hmt]]; [lia|].
  destruct (of_Z_normal 100) as [mh [Eh Hmh]]; [lia|].
  destruct (of_Z_normal 10) as [mten [Eten Hmten]]; [lia|].
  rewrite Et, Eh, Eten.
  destruct (of_Z_value t mt ltac:(lia) Hmt) as [Vt Ct].
  destruct (of_Z_value 100 mh ltac:(lia) Hmh) as [Vh Ch].
  destruct (of_Z_value 10 mten ltac:(lia) Hmten) as [Vten Cten].
  change (Z.log2 100) with 6 in *. change (Z.log2 10) with 3 in *.
  pose proof (log2_lt_pow t 32 ltac:(lia) ltac:(lia)) as Hlt.
  assert (Hcase : a = 0 \/ 1 <= a) by lia.
  destruct Hcase as [->|Ha1].
  - exists 0. split; [reflexivity | lia].
  - destruct (of_Z_normal a) as [ma [Ea Hma]]; [lia|]. rewrite Ea.
    destruct (of_Z_value a ma ltac:(lia) Hma) as [Va Ca].
    pose proof (log2_lt_pow a 32 ltac:(lia) ltac:(lia)) as Hla.
    pose proof (Z.log2_le_mono a t ltac:(lia)) as Hmono.
    destruct (SFdiv_normal ma mt (Z.log2 a - 52) (Z.log2 t - 52))
      as [mq [eq [Eq [Cq [Heq Rq]]]]]; [exact Ca | exact Ct | lia | lia |].
    rewrite Eq.
    destruct (SFmul_normal mq mh eq (6 - 52))
      as [m2 [e2 [E2 [C2 [He2 R2]]]]]; [exact Cq | exact Ch | lia | lia |].
    rewrite E2.
    destruct (SFmul_normal m2 mten e2 (3 - 52))
      as [m3 [e3 [E3 [C3 [He3 R3]]]]]; [exact C2 | exact Cten | lia | lia |].
    rewrite E3.
    destruct (Math_round_pos m3 e3) as [k [Ek Hk]]; [lia|].
    exists k. split; [exact Ek|]. clear Ek.
    rewrite Va, Vt in Rq. rewrite Vh in R2. rewrite Vten in R3.
    set (V := (IZR a / IZR t)%R) in *.
    assert (Htr : (1 <= IZR t <= 4294967296)%R).
    { split; [apply IZR_le; lia|]. apply IZR_le.
      change 4294967296 with (2 ^ 32). lia. }
    assert (Har : (1 <= IZR a <= IZR t)%R)
      by (split; apply IZR_le; lia).
    assert (EV : (V * IZR t = IZR a)%R) by (unfold V; field; lra).
    assert (HV : (0 < V <= 1)%R).
    { split.
      - unfold V. apply Rdiv_lt_0_compat; lra.
      - apply Rmult_le_reg_r with (IZR t); lra. }
    pose proof (rate_chain V _ _ _ HV Rq R2 R3) as Hc.
    apply Rabs_bound in Hc. unfold eps in Hc.
    set (X3 := F2R (Zpos m3) e3) in *.
    (* both bounds, multiplied by [t] *)
    assert (B1 : ((IZR k - / 2 - 5000 * / 4503599627370496) * IZR t
                  <= 1000 * V * IZR t)%R)
      by (apply Rmult_le_compat_r; lra).
    assert (B2 : (1000 * V * IZR t
                  <= (IZR k + / 2 + 5000 * / 4503599627370496) * IZR t)%R)
      by (apply Rmult_le_compat_r; lra).
    replace (1000 * V * IZR t)%R with (1000 * IZR a)%R in B1, B2
      by (rewrite <- EV; ring).
    assert (L1 : (IZR (2 * k * t - t - 1) < IZR (2000 * a))%R).
    { rewrite !minus_IZR, !mult_IZR. nra. }
    assert (L2 : (IZR (2000 * a) < IZR (2 * k * t + t + 1))%R).
    { rewrite !plus_IZR, !mult_IZR. nra. }
    apply lt_IZR in L1, L2. lia.
Qed.

(** C7, as stated, fails: the rate is computed in binary floating point,
    and a quotient that ends in 5 at the second decimal can fall below
    the tie. With 23 active contacts of 80 the exact rate is 28.75; the
    product by 10 is just under 287.5 and [Math.round] gives 287, so the
    result is 28.7 and not 28.8. *)
Lemma getMetrics_rate_not_exact_rounding :
  ~ (forall (tz : Zone) (now : Z) (s : MemStorage),
       conversionRate (getMetrics tz now s) =
       exact_conversionRate (count_status "active" s)
                            (len (Map_values (contacts s)))).
Proof.
  intros H. specialize (H utc 0 Sample.s_80).
  vm_compute in H. discriminate H.
Qed.

(** The numbers of that repository. *)
Example getMetrics_23_of_80 :
  totalContacts (getMetrics utc 0 Sample.s_80) = 80 /\
  count_status "active" Sample.s_80 = 23 /\
  conversionRate (getMetrics utc 0 Sample.s_80) = decimal1 287 /\
  (exact_rate 23 80 == 115 # 4)%Q /\
  tenths_half_up (exact_rate 23 80) = 288 /\
  tenths_half_even (exact_rate 23 80) = 288 /\
  decimal1 287 <> decimal1 288.
Proof.
  repeat split; try (vm_compute; reflexivity).
  vm_compute. discriminate.
Qed.

(** C7, amended: [conversionRate] is the rate of the contacts of status
    "active" among all contacts, in percent, rounded to one decimal place:
    the number [k / 10] for an integer [k] nearest to the exact
    [1000 * active / total], where on an exact tie either neighbour may
    come out (the arithmetic is that of binary64 numbers, as the formula
    after it spells out). This holds for every repository of fewer than [2^32]
    contacts, the bound on the length of an array. The rate is 0 when
    there is no contact; on the empty repository the four metrics are 0,
    and with four contacts of statuses prospect, prospect, active, active
    the metrics are 4 contacts, 2 leads and a rate of 50. *)
Theorem getMetrics_conversionRate (tz : Zone) (now : Z) (s : MemStorage) :
  totalContacts (getMetrics tz now s) = len (Map_values (contacts s)) /\
  activeLeads (getMetrics tz now s) = count_status "prospect" s /\
  (totalContacts (getMetrics tz now s) < 2 ^ 32 ->
   exists k,
     conversionRate (getMetrics tz now s) = decimal1 k /\
     0 <= k <= 1000 /\
     Z.abs (2000 * count_status "active" s -
            2 * k * totalContacts (getMetrics tz now s))
       <= totalContacts (getMetrics tz now s)) /\
  conversionRate (getMetrics tz now s) =
    (if totalContacts (getMetrics tz now s) =? 0 then of_Z 0
     else round1 (num_mul
                    (num_div (of_Z (count_status "active" s))
                             (of_Z (totalContacts (getMetrics tz now s))))
                    (of_Z 100))) /\
  (totalContacts (getMetrics tz now s) = 0 ->
   conversionRate (getMetrics tz now s) = of_Z 0 /\
   activeLeads (getMetrics tz now s) = 0) /\
  getMetrics tz now empty =
    {| totalContacts := 0; activeLeads := 0; todayActivities := 0;
       conversionRate := of_Z 0 |} /\
  (Permutation (map status (Map_values (contacts s)))
     [Some "prospect"; Some "prospect"; Some "active"; Some "active"] ->
   totalContacts (getMetrics tz now s) = 4 /\
   activeLeads (getMetrics tz now s) = 2 /\
   conversionRate (getMetrics tz now s) = of_Z 50).
Proof.
  split; [reflexivity|]. split; [reflexivity|]. split.
  { intros Hlt. rewrite getMetrics_rate. cbn [totalContacts getMetrics] in *.
    unfold count_status.
    set (cs := Map_values (contacts s)) in *.
    assert (Ha : 0 <= len (filter (has_status "active") cs) <= len cs).
    { split; [apply len_nonneg|]. unfold len. apply inj_le, filter_length_le. }
    set (a := len (filter (has_status "active") cs)) in *.
    set (t := len cs) in *.
    destruct (Z.eq_dec t 0) as [E0|Hne].
    - exists 0. assert (a = 0) by lia. subst a. rewrite E0, H.
      split; [reflexivity | lia].
    - destruct (rate_tenths_all a t) as [k [Ek Hk]]; [lia | lia |].
      exists k. split.
      + unfold round1, decimal1. now rewrite Ek.
      + split; [|exact Hk]. split; nia. }
  assert (Hrate : conversionRate (getMetrics tz now s) =
                  if totalContacts (getMetrics tz now s) =? 0 then of_Z 0
                  else round1 (num_mul
                                 (num_div (of_Z (count_status "active" s))
                                          (of_Z (totalContacts (getMetrics tz now s))))
                                 (of_Z 100))).
  { rewrite getMetrics_rate. cbn [totalContacts getMetrics]. unfold rate.
    pose proof (len_nonneg (Map_values (contacts s))) as Hn.
    destruct (len (Map_values (contacts s)) =? 0) eqn:E.
    - apply Z.eqb_eq in E. rewrite E. reflexivity.
    - apply Z.eqb_neq in E.
      assert (L : (0 <? len (Map_values (contacts s))) = true)
        by (apply Z.ltb_lt; lia).
      now rewrite L. }
  split; [exact Hrate|]. split; [|split].
  - intros H0. rewrite Hrate, H0. split; [reflexivity|].
    cbn [totalContacts activeLeads getMetrics] in *.
    unfold len in H0. destruct (Map_values (contacts s)); [reflexivity|].
    simpl in H0. lia.
  - reflexivity.
  - intros HP.
    assert (Ht : len (Map_values (contacts s)) = 4).
    { unfold len. rewrite <- (length_map status), (Permutation_length HP).
      reflexivity. }
    rewrite getMetrics_rate. cbn [totalContacts activeLeads getMetrics].
    unfold count_status.
    rewrite !(count_by_statuses _ _ _ HP), Ht. repeat split.
Qed.

Lemma getMetrics_conversionRate_witness :
  (totalContacts (getMetrics utc 0 (Sample.populate 4 2)) = 4 /\
   activeLeads (getMetrics utc 0 (Sample.populate 4 2)) = 2 /\
   conversionRate (getMetrics utc 0 (Sample.populate 4 2)) = of_Z 50) /\
  exists k,
    conversionRate (getMetrics utc 0 Sample.s_80) = decimal1 k /\
    0 <= k <= 1000 /\
    Z.abs (2000 * count_status "active" Sample.s_80 -
           2 * k * totalContacts (getMetrics utc 0 Sample.s_80))
      <= totalContacts (getMetrics utc 0 Sample.s_80).
Proof.
  split.
  - apply (getMetrics_conversionRate utc 0 (Sample.populate 4 2)).
    apply Permutation_rev.
  - apply (getMetrics_conversionRate utc 0 Sample.s_80).
    vm_compute. reflexivity.
Defined.

(** *** Activities of the day *)

Lemma in_day_spec (tz : Zone) (now : Z) (a : Activity) :
  in_day (setHours0 tz now) (addOneDay tz (setHours0 tz now)) a = true <->
  created_today tz now a.
Proof.
  unfold in_day, created_today, midnight_today, midnight_tomorrow.
  rewrite andb_true_iff, Z.leb_le, Z.ltb_lt. reflexivity.
Qed.

Lemma Map_values_set_fresh {V} (k : string) (v : V) (m : Map V) :
  Map_has k m = false -> Map_values (Map_set k v m) = (Map_values m ++ [v])%list.
Proof.
  unfold Map_has, Map_values. induction m as [|[k' v'] m IH]; simpl.
  - reflexivity.
  - destruct (String.eqb k' k); simpl; [discriminate|].
    intros H. now rewrite IH.
Qed.

(** The count after one more activity, created at [t] under a fresh id. *)
Lemma todayActivities_createActivity (tz : Zone) (now t : Z) (aid : string)
    (data : InsertActivity) (s : MemStorage) :
  Map_has aid (activities s) = false ->
  todayActivities (getMetrics tz now (snd (createActivity aid t data s))) =
  todayActivities (getMetrics tz now s) +
  (if ((setHours0 tz now <=? t) && (t <? addOneDay tz (setHours0 tz now)))%bool
   then 1 else 0).
Proof.
  intros Hfresh. cbn [todayActivities getMetrics createActivity snd activities].
  rewrite (Map_values_set_fresh _ _ _ Hfresh), filter_app, len_app.
  f_equal. cbn [filter]. unfold in_day at 1. cbn [activity_createdAt].
  now destruct (_ && _)%bool.
Qed.

(** In a zone at a fixed offset the day of [now] starts at or before [now]
    and ends after it, 24 hours later. *)
Lemma fixedZone_day (offset now : Z) :
  setHours0 (fixedZone offset) now <= now <
  addOneDay (fixedZone offset) (setHours0 (fixedZone offset) now) /\
  (setHours0 (fixedZone offset) now + offset) mod msPerDay = 0.
Proof.
  unfold fixedZone, msPerDay. cbn [setHours0 addOneDay].
  pose proof (Z.mod_pos_bound (now + offset) 86400000 ltac:(lia)) as Hb.
  split; [lia|].
  replace (now - (now + offset) mod 86400000 + offset)
    with ((now + offset) - (now + offset) mod 86400000) by lia.
  rewrite Zminus_mod, Zmod_mod, Z.sub_diag. reflexivity.
Qed.

(** C8: [todayActivities] counts exactly the activities created in the
    half-open interval from local midnight today to local midnight
    tomorrow. An activity created at exactly local midnight today adds one
    to the count; one created a second earlier, at 23:59:59 of the day
    before, adds nothing. *)
Theorem todayActivities_half_open (tz : Zone) (now : Z) (s : MemStorage) :
  midnight_today tz now < midnight_tomorrow tz now ->
  (exists p : Activity -> bool,
     (forall a, p a = true <-> created_today tz now a) /\
     todayActivities (getMetrics tz now s) =
       len (filter p (Map_values (activities s)))) /\
  (forall aid data, Map_has aid (activities s) = false ->
     todayActivities
       (getMetrics tz now (snd (createActivity aid (midnight_today tz now) data s))) =
     todayActivities (getMetrics tz now s) + 1) /\
  (forall aid data, Map_has aid (activities s) = false ->
     todayActivities
       (getMetrics tz now
          (snd (createActivity aid (midnight_today tz now - 1000) data s))) =
     todayActivities (getMetrics tz now s)).
Proof.
  unfold midnight_today, midnight_tomorrow. intros Hday. split; [|split].
  - exists (in_day (setHours0 tz now) (addOneDay tz (setHours0 tz now))).
    split; [intros a; apply in_day_spec | reflexivity].
  - intros aid data Hfresh. rewrite todayActivities_createActivity by exact Hfresh.
    f_equal.
    assert (L1 : (setHours0 tz now <=? setHours0 tz now) = true)
      by (apply Z.leb_le; lia).
    assert (L2 : (setHours0 tz now <? addOneDay tz (setHours0 tz now)) = true)
      by (apply Z.ltb_lt; lia).
    now rewrite L1, L2.
  - intros aid data Hfresh. rewrite todayActivities_createActivity by exact Hfresh.
    assert (L1 : (setHours0 tz now <=? setHours0 tz now - 1000) = false)
      by (apply Z.leb_gt; lia).
    rewrite L1. cbn [andb]. lia.
Qed.

Lemma todayActivities_half_open_witness :
  todayActivities
    (getMetrics utc 90000000
       (snd (createActivity "a9" 86400000 (Sample.newActivity "c1" "at midnight")
               Sample.s_acts))) =
  todayActivities (getMetrics utc 90000000 Sample.s_acts) + 1 /\
  todayActivities
    (getMetrics utc 90000000
       (snd (createActivity "a9" 86399000 (Sample.newActivity "c1" "the day before")
               Sample.s_acts))) =
  todayActivities (getMetrics utc 90000000 Sample.s_acts).
Proof.
  assert (Hday : midnight_today utc 90000000 < midnight_tomorrow utc 90000000)
    by (vm_compute; reflexivity).
  destruct (todayActivities_half_open utc 90000000 Sample.s_acts Hday)
    as [_ [H1 H2]].
  split.
  - exact (H1 "a9" (Sample.newActivity "c1" "at midnight") eq_refl).
  - exact (H2 "a9" (Sample.newActivity "c1" "the day before") eq_refl).
Defined.

Lemma rates_are_nearest_100 : rates_are_nearest 100 = true.
Proof. vm_compute. reflexivity. Qed.

Lemma rates_are_nearest_spec (n active total : nat) :
  rates_are_nearest n = true ->
  (1 <= total <= n)%nat -> (active <= total)%nat ->
  rate_is_nearest (Z.of_nat active) (Z.of_nat total) = true.
Proof.
  intros H Ht Ha.
  unfold rates_are_nearest in H. rewrite forallb_forall in H.
  specialize (H total). rewrite forallb_forall in H.
  apply H; apply in_seq; lia.
Qed.

(** With up to 100 contacts the rate is always a nearest decimal of the
    exact quotient: the two differ from the exactly rounded value only in
    which way a tie goes. *)
Lemma getMetrics_rate_nearest_upto_100 (active total : nat) :
  (1 <= total <= 100)%nat -> (active <= total)%nat ->
  rate_is_nearest (Z.of_nat active) (Z.of_nat total) = true.
Proof. exact (rates_are_nearest_spec 100 active total rates_are_nearest_100). Qed.

(** ** Reachable repositories *)

Lemma Map_wf_filter {V} (f : string * V -> bool) (m : Map V) :
  Map_wf m -> Map_wf (filter f m).
Proof.
  unfold Map_wf, Map_keys.
  induction m as [|p m IH]; simpl; [easy|].
  intros H. inversion H as [|? ? Hnin Hnd]; subst.
  destruct (f p); simpl; [|now apply IH].
  constructor; [|now apply IH].
  intros Hin. apply Hnin. apply in_map_iff in Hin.
  destruct Hin as [q [Hq Hin]]. apply filter_In in Hin.
  apply in_map_iff. exists q. tauto.
Qed.

(** The keys of each map stay distinct under every method. *)
Lemma reachable_wf (s : MemStorage) : reachable s -> wf s.
Proof.
  induction 1 as [|uid data s _ IH|cid now data s _ IH|now cid u s _ IH
                  |cid s _ IH|aid now data s _ IH].
  - repeat split; constructor.
  - destruct IH as [Hu [Hc Ha]]. repeat split; cbn; auto using Map_wf_set.
  - destruct IH as [Hu [Hc Ha]]. repeat split; cbn; auto using Map_wf_set.
  - destruct IH as [Hu [Hc Ha]]. unfold updateContact.
    destruct (Map_get cid (contacts s)); repeat split; cbn; auto using Map_wf_set.
  - destruct IH as [Hu [Hc Ha]]. rewrite deleteContact_eq.
    repeat split; cbn [snd users contacts activities]; auto using Map_wf_remove.
    unfold Map_entries. rewrite cascade_fold. now apply Map_wf_filter.
  - destruct IH as [Hu [Hc Ha]]. repeat split; cbn; auto using Map_wf_set.
Qed.

(** Where every activity refers to a stored contact, deleting an id that
    is not stored changes nothing. *)
Lemma deleteContact_absent_referential (s : MemStorage) (cid : string) :
  referential s -> Map_has cid (contacts s) = false ->
  deleteContact cid s = (false, s).
Proof.
  intros Href Habs. rewrite deleteContact_eq, Habs.
  rewrite (Map_remove_absent _ _ Habs), cascade_none, MemStorage_eta; [reflexivity|].
  intros a Ha Hc. apply Href in Ha. congruence.
Qed.

(** The reference is not an invariant: an activity can be created for a
    contact that is not there. *)
Example createActivity_unchecked :
  reachable Sample.s_acts /\ ~ referential Sample.s_acts.
Proof.
  split.
  - repeat constructor.
  - intros H.
    specialize (H (fst (createActivity "a3" 1300 (Sample.newActivity "ghost" "orphan") empty))).
    discriminate H. simpl. tauto.
Qed.

(** * Further properties of the repository *)

(** ** Users *)

Lemma find_app {A} (f : A -> bool) (l1 l2 : list A) :
  find f (l1 ++ l2)%list =
  match find f l1 with
  | Some x => Some x
  | None => find f l2
  end.
Proof.
  induction l1 as [|x l1 IH]; simpl; [reflexivity|].
  now destruct (f x).
Qed.

Lemma find_first {A} (f : A -> bool) (l : list A) (x : A) :
  find f l = Some x ->
  exists l1 l2, l = (l1 ++ x :: l2)%list /\ f x = true /\
                forall y, In y l1 -> f y = false.
Proof.
  induction l as [|y l IH]; simpl; [discriminate|].
  destruct (f y) eqn:E.
  - intros [= ->]. exists [], l. repeat split; [exact E | intros ? []].
  - intros H. destruct (IH H) as [l1 [l2 [-> [Hx Hl1]]]].
    exists (y :: l1), l2. repeat split; [exact Hx|].
    intros z [<-|Hz]; [exact E | now apply Hl1].
Qed.

(** [createUser] stores the user under the id it was given, with the
    username and password of the input; [getUser] on that id returns it,
    every other id answers as before, and contacts and activities are not
    touched. *)
Theorem createUser_getUser (uid : string) (data : InsertUser) (s : MemStorage) :
  getUser (snd (createUser uid data s)) uid = Some (fst (createUser uid data s)) /\
  user_id (fst (createUser uid data s)) = uid /\
  username (fst (createUser uid data s)) = iu_username data /\
  password (fst (createUser uid data s)) = iu_password data /\
  (forall k, k <> uid ->
             getUser (snd (createUser uid data s)) k = getUser s k) /\
  contacts (snd (createUser uid data s)) = contacts s /\
  activities (snd (createUser uid data s)) = activities s.
Proof.
  unfold getUser, createUser. cbn [fst snd users contacts activities].
  split; [apply Map_get_set_same|]. do 3 (split; [reflexivity|]).
  split; [|split; reflexivity].
  intros k Hk. now apply Map_get_set_other.
Qed.

(** [getUserByUsername] returns the first stored user, in insertion
    order, whose username is exactly the one asked for, and nothing when no
    stored user has it. *)
Theorem getUserByUsername_first (s : MemStorage) (n : string) :
  match getUserByUsername s n with
  | Some u =>
      username u = n /\
      exists before after,
        Map_values (users s) = (before ++ u :: after)%list /\
        forall x, In x before -> username x <> n
  | None => forall x, In x (Map_values (users s)) -> username x <> n
  end.
Proof.
  unfold getUserByUsername.
  destruct (find _ (Map_values (users s))) as [u|] eqn:F.
  - destruct (find_first _ _ _ F) as [l1 [l2 [E [Hu Hl1]]]].
    apply String.eqb_eq in Hu. split; [exact Hu|].
    exists l1, l2. split; [exact E|].
    intros x Hx. apply String.eqb_neq. now apply Hl1.
  - intros x Hx. apply String.eqb_neq.
    exact (find_none _ _ F x Hx).
Qed.

(** [createUser] does not check the username: with a fresh id, a user
    whose username is already taken is stored all the same, and
    [getUserByUsername] keeps returning the earlier user; when the
    username is new it returns the created one. *)
Theorem createUser_username_lookup (uid : string) (data : InsertUser)
    (s : MemStorage) :
  Map_has uid (users s) = false ->
  getUser (snd (createUser uid data s)) uid = Some (fst (createUser uid data s)) /\
  getUserByUsername (snd (createUser uid data s)) (iu_username data) =
    match getUserByUsername s (iu_username data) with
    | Some earlier => Some earlier
    | None => Some (fst (createUser uid data s))
    end.
Proof.
  intros Hfresh. unfold getUser, getUserByUsername, createUser.
  cbn [fst snd users]. split; [apply Map_get_set_same|].
  rewrite (Map_values_set_fresh _ _ _ Hfresh), find_app.
  destruct (find _ (Map_values (users s))); [reflexivity|].
  cbn. now rewrite String.eqb_refl.
Qed.

Lemma createUser_username_lookup_witness :
  option_map user_id
    (getUserByUsername
       (snd (createUser "u2" {| iu_username := "ann"; iu_password := "b" |}
          (snd (createUser "u1" {| iu_username := "ann"; iu_password := "a" |} empty))))
       "ann") = Some "u1".
Proof.
  destruct (createUser_username_lookup "u2"
              {| iu_username := "ann"; iu_password := "b" |}
              (snd (createUser "u1" {| iu_username := "ann"; iu_password := "a" |} empty))
              eq_refl) as [_ H].
  cbn [iu_username] in H. rewrite H. reflexivity.
Defined.

(** ** Contacts: what a write leaves alone *)

Lemma Map_get_remove_other {V} (k k' : string) (m : Map V) :
  k' <> k -> Map_get k' (Map_remove k m) = Map_get k' m.
Proof.
  intros Hne. unfold Map_get, Map_remove.
  induction m as [|[k0 v0] m IH]; simpl; [reflexivity|].
  destruct (String.eqb k0 k) eqn:E; simpl.
  - apply String.eqb_eq in E. subst k0.
    apply String.eqb_neq in Hne. rewrite String.eqb_sym in Hne.
    now rewrite Hne.
  - destruct (String.eqb k0 k'); [reflexivity | exact IH].
Qed.

Lemma Map_values_set_In {V} (k : string) (v x : V) (m : Map V) :
  In x (Map_values (Map_set k v m)) -> x = v \/ In x (Map_values m).
Proof.
  unfold Map_values. induction m as [|[k0 v0] m IH]; simpl.
  - intros [<-|[]]. now left.
  - destruct (String.eqb k0 k); simpl.
    + intros [<-|H]; [now left | right; now right].
    + intros [<-|H]; [right; now left|].
      destruct (IH H) as [->|H']; [now left | right; now right].
Qed.

Lemma Map_values_get {V} (k : string) (v : V) (m : Map V) :
  Map_get k m = Some v -> In v (Map_values m).
Proof.
  intros H. apply Map_get_In in H. unfold Map_values.
  apply in_map_iff. now exists (k, v).
Qed.

(** [createContact] touches the contact of its id only: every other id
    answers [getContact] as before, users and activities are the same, and
    with a fresh id the contact is added after the stored ones, one more
    for [totalContacts]. *)
Theorem createContact_frame (cid : string) (now : Z) (data : InsertContact)
    (s : MemStorage) :
  users (snd (createContact cid now data s)) = users s /\
  activities (snd (createContact cid now data s)) = activities s /\
  (forall k, k <> cid ->
     getContact (snd (createContact cid now data s)) k = getContact s k) /\
  (Map_has cid (contacts s) = false ->
   Map_values (contacts (snd (createContact cid now data s))) =
     (Map_values (contacts s) ++ [fst (createContact cid now data s)])%list /\
   forall tz t,
     totalContacts (getMetrics tz t (snd (createContact cid now data s))) =
     totalContacts (getMetrics tz t s) + 1).
Proof.
  unfold getContact, createContact. cbn [fst snd users contacts activities].
  do 2 (split; [reflexivity|]). split.
  - intros k Hk. now apply Map_get_set_other.
  - intros Hfresh. rewrite (Map_values_set_fresh _ _ _ Hfresh).
    split; [reflexivity|]. intros tz t. cbn [totalContacts getMetrics contacts].
    rewrite (Map_values_set_fresh _ _ _ Hfresh), len_app. reflexivity.
Qed.

Lemma createContact_frame_witness :
  Map_values (contacts (snd (createContact "c7" 7000 (Sample.newContact "Eve" "eve@mail.example" None) Sample.s_two))) =
    (Map_values (contacts Sample.s_two) ++
     [fst (createContact "c7" 7000 (Sample.newContact "Eve" "eve@mail.example" None) Sample.s_two)])%list /\
  forall tz t,
    totalContacts (getMetrics tz t (snd (createContact "c7" 7000 (Sample.newContact "Eve" "eve@mail.example" None) Sample.s_two))) =
    totalContacts (getMetrics tz t Sample.s_two) + 1.
Proof.
  exact (proj2 (proj2 (proj2
    (createContact_frame "c7" 7000
       (Sample.newContact "Eve" "eve@mail.example" None) Sample.s_two))) eq_refl).
Defined.

(** [updateContact] touches the contact of its id only: users and
    activities are the same, the ids of the contacts and their order in the
    map are the same (so is their number), and every other id answers
    [getContact] as before. This holds whether or not the id exists. *)
Theorem updateContact_frame (now : Z) (cid : string) (u : ContactUpdate)
    (s : MemStorage) :
  users (snd (updateContact now cid u s)) = users s /\
  activities (snd (updateContact now cid u s)) = activities s /\
  Map_keys (contacts (snd (updateContact now cid u s))) = Map_keys (contacts s) /\
  (forall k, k <> cid ->
     getContact (snd (updateContact now cid u s)) k = getContact s k).
Proof.
  unfold getContact, updateContact.
  destruct (Map_get cid (contacts s)) as [existing|] eqn:G;
    cbn [snd users contacts activities]; [|tauto].
  do 2 (split; [reflexivity|]). split.
  - rewrite Map_keys_set.
    assert (Hhas : Map_has cid (contacts s) = true)
      by (apply Map_has_get; congruence).
    now rewrite Hhas.
  - intros k Hk. now apply Map_get_set_other.
Qed.

(** ** Contacts: the most recent write comes first *)

Section SortMax.
Context {A : Type} (key : A -> Z).

(** An element appended to the array with a key above all others is the
    first of the sorted array, the others following as they would without
    it. *)
Lemma Array_sort_app_max (l : list A) (x : A) :
  (forall y, In y l -> key y < key x) ->
  Array_sort (fun a b => key b - key a) (l ++ [x])%list =
  x :: Array_sort (fun a b => key b - key a) l.
Proof.
  induction l as [|y l IH]; intros H; simpl; [reflexivity|].
  rewrite IH by (intros z Hz; apply H; now right).
  simpl. assert (L : (0 <? key x - key y) = true).
  { apply Z.ltb_lt. specialize (H y (or_introl eq_refl)). lia. }
  now rewrite L.
Qed.

(** The first of a sorted array has the largest key. *)
Lemma Array_sort_head (l : list A) (h : A) (rest : list A) :
  Array_sort (fun a b => key b - key a) l = h :: rest ->
  forall y, In y l -> key y <= key h.
Proof.
  intros E y Hy.
  pose proof (Array_sort_sorted key l) as Hs. rewrite E in Hs.
  apply (proj2 (Array_sort_In key l y)) in Hy. rewrite E in Hy.
  inversion Hs as [|? ? _ Hall]; subst.
  destruct Hy as [<-|Hy]; [lia|].
  rewrite Forall_forall in Hall. exact (Hall y Hy).
Qed.

End SortMax.

(** A contact created under a fresh id, at a time after every stored
    [updatedAt], is the first of the unfiltered [getContacts], before the
    list as it was. *)
Theorem createContact_listed_first {lc : Casing} (cid : string) (now : Z)
    (data : InsertContact) (s : MemStorage) :
  Map_has cid (contacts s) = false ->
  (forall c, In c (Map_values (contacts s)) -> updatedAt c < now) ->
  getContacts (snd (createContact cid now data s)) None =
  fst (createContact cid now data s) :: getContacts s None.
Proof.
  intros Hfresh Hold. unfold getContacts, createContact.
  cbn [fst snd contacts chain given].
  rewrite (Map_values_set_fresh _ _ _ Hfresh).
  apply (Array_sort_app_max updatedAt). exact Hold.
Qed.

Lemma createContact_listed_first_witness :
  map name
    (getContacts (lc := asciiCasing)
       (snd (createContact "c7" 7000 (Sample.newContact "Eve" "eve@mail.example" None) Sample.s_two))
       None) = ["Eve"; "Bob"; "Ann"].
Proof.
  rewrite (createContact_listed_first (lc := asciiCasing) "c7" 7000
             (Sample.newContact "Eve" "eve@mail.example" None) Sample.s_two).
  - reflexivity.
  - reflexivity.
  - intros c [<-|[<-|[]]]; reflexivity.
Defined.

(** A contact updated at a time after every stored [updatedAt] is the
    first of the unfiltered [getContacts]. *)
Theorem updateContact_listed_first {lc : Casing} (now : Z) (cid : string)
    (u : ContactUpdate) (s : MemStorage) (existing : Contact) :
  getContact s cid = Some existing ->
  (forall c, In c (Map_values (contacts s)) -> updatedAt c < now) ->
  exists updated rest,
    fst (updateContact now cid u s) = Some updated /\
    getContacts (snd (updateContact now cid u s)) None = updated :: rest.
Proof.
  unfold getContact. intros Hget Hold. unfold updateContact. rewrite Hget.
  cbn [fst snd]. eexists. 
  set (updated := {| id := _ |}).
  set (s' := {| users := _ |}).
  assert (Hin : In updated (Map_values (contacts s'))).
  { apply (Map_values_get cid). apply Map_get_set_same. }
  unfold getContacts. cbn [chain given].
  destruct (Array_sort by_updatedAt_desc (Map_values (contacts s')))
    as [|h rest] eqn:E.
  - apply (proj2 (Array_sort_In updatedAt _ _)) in Hin.
    unfold by_updatedAt_desc in E. rewrite E in Hin. destruct Hin.
  - exists rest. split; [reflexivity|]. f_equal.
    pose proof (Array_sort_head updatedAt _ _ _ E updated Hin) as Hle.
    assert (Hh : In h (Map_values (contacts s'))).
    { apply (proj1 (Array_sort_In updatedAt _ h)).
      unfold by_updatedAt_desc in E. rewrite E. now left. }
    apply Map_values_set_In in Hh. destruct Hh as [->|Hh]; [reflexivity|].
    specialize (Hold h Hh). subst updated. cbn [updatedAt] in Hle. lia.
Qed.

Lemma updateContact_listed_first_witness :
  exists updated rest,
    fst (updateContact 3000 "c1" Sample.noUpdate Sample.s_two) = Some updated /\
    getContacts (lc := asciiCasing)
      (snd (updateContact 3000 "c1" Sample.noUpdate Sample.s_two)) None =
      updated :: rest.
Proof.
  apply (updateContact_listed_first (lc := asciiCasing) 3000 "c1"
           Sample.noUpdate Sample.s_two
           (fst (createContact "c1" 1000
                   (Sample.newContact "Ann" "ann@acme.example" (Some "active")) empty))).
  - reflexivity.
  - intros c [<-|[<-|[]]]; reflexivity.
Defined.

(** ** [deleteContact]: frame, repetition, count *)

Lemma Map_values_filter {V} (P : V -> bool) (m : Map V) :
  Map_values (filter (fun p => P (snd p)) m) = filter P (Map_values m).
Proof.
  unfold Map_values. induction m as [|p m IH]; simpl; [reflexivity|].
  destruct (P (snd p)); simpl; now rewrite IH.
Qed.

Lemma Map_has_remove_same {V} (k : string) (m : Map V) :
  Map_has k (Map_remove k m) = false.
Proof. apply Map_has_false_get, Map_get_remove_same. Qed.

(** [deleteContact] of any id, stored or not, leaves the users, every
    other contact, and the activity list of every other contact as they
    were. *)
Theorem deleteContact_frame (cid : string) (s : MemStorage) :
  Map_wf (activities s) ->
  users (snd (deleteContact cid s)) = users s /\
  (forall k, k <> cid ->
     getContact (snd (deleteContact cid s)) k = getContact s k) /\
  (forall c, c <> cid -> c <> EmptyString ->
     getActivities (snd (deleteContact cid s)) (Some c) = getActivities s (Some c)).
Proof.
  intros Hwf. rewrite deleteContact_eq. cbn [snd users].
  split; [reflexivity|]. split.
  - intros k Hk. unfold getContact. cbn [contacts].
    now apply Map_get_remove_other.
  - intros c Hc Hne. unfold getActivities. cbn [activities].
    assert (G : given (Some c) = Some c) by (apply given_spec; now split).
    rewrite G. f_equal. rewrite (cascade_wf _ _ Hwf).
    rewrite (Map_values_filter (fun a => negb (String.eqb (contactId a) cid))).
    rewrite filter_filter. apply filter_ext. intros a.
    destruct (String.eqb (contactId a) c) eqn:E; [|now rewrite andb_false_r].
    apply String.eqb_eq in E. rewrite E.
    apply String.eqb_neq in Hc. now rewrite Hc.
Qed.

Lemma deleteContact_frame_witness :
  getContact (snd (deleteContact "ghost" Sample.s_acts)) "c1" =
    getContact Sample.s_acts "c1" /\
  getActivities (snd (deleteContact "ghost" Sample.s_acts)) (Some "c1") =
    getActivities Sample.s_acts (Some "c1").
Proof.
  assert (Hwf : Map_wf (activities Sample.s_acts))
    by (repeat constructor; simpl; intuition discriminate).
  destruct (deleteContact_frame "ghost" Sample.s_acts Hwf) as [_ [H1 H2]].
  split; [apply H1 | apply H2]; discriminate.
Defined.

(** Deleting the same id again returns false and changes nothing more. *)
Theorem deleteContact_twice (cid : string) (s : MemStorage) :
  deleteContact cid (snd (deleteContact cid s)) =
  (false, snd (deleteContact cid s)).
Proof.
  rewrite (deleteContact_eq cid (snd (deleteContact cid s))).
  rewrite (deleteContact_eq cid s). cbn [snd users contacts activities].
  rewrite Map_has_remove_same.
  rewrite (Map_remove_absent _ _ (Map_has_remove_same cid (contacts s))).
  rewrite cascade_none; [reflexivity|].
  intros a Ha. exact (cascade_clears _ _ _ Ha).
Qed.

Lemma remove_length {V} (k : string) (m : Map V) :
  Map_wf m -> Map_has k m = true ->
  len (Map_values (Map_remove k m)) = len (Map_values m) - 1.
Proof.
  intros Hwf Hhas.
  enough (H : S (List.length (Map_values (Map_remove k m))) =
              List.length (Map_values m)) by (unfold len; lia).
  revert Hwf Hhas. unfold Map_wf, Map_keys, Map_has, Map_remove, Map_values.
  induction m as [|[k0 v0] m IH]; simpl; [discriminate|].
  intros Hnd Hhas. inversion Hnd as [|? ? Hnin Hnd']; subst.
  destruct (String.eqb k0 k) eqn:E; simpl.
  - apply String.eqb_eq in E. subst k0.
    rewrite filter_all; [reflexivity|].
    intros [k1 v1] Hin. simpl. apply negb_true_iff, String.eqb_neq.
    intros ->. apply Hnin. apply in_map_iff. now exists (k, v1).
  - f_equal. exact (IH Hnd' Hhas).
Qed.

(** Deleting a stored contact takes exactly one off [totalContacts]. *)
Theorem deleteContact_count (cid : string) (s : MemStorage) (tz : Zone) (t : Z) :
  Map_wf (contacts s) ->
  Map_has cid (contacts s) = true ->
  totalContacts (getMetrics tz t (snd (deleteContact cid s))) =
  totalContacts (getMetrics tz t s) - 1.
Proof.
  intros Hwf Hhas. rewrite deleteContact_eq.
  cbn [snd totalContacts getMetrics contacts].
  now apply remove_length.
Qed.

Lemma deleteContact_count_witness :
  totalContacts (getMetrics utc 0 (snd (deleteContact "c1" Sample.s_two))) = 1.
Proof.
  rewrite (deleteContact_count "c1" Sample.s_two utc 0).
  - reflexivity.
  - repeat constructor; simpl; intuition discriminate.
  - reflexivity.
Defined.

(** ** Activities *)

Lemma getActivities_In_iff (s : MemStorage) (q : optional string) (a : Activity) :
  In a (getActivities s q) <->
  In a (Map_values (activities s)) /\
  (forall c, q = Some c -> c <> EmptyString -> contactId a = c).
Proof.
  unfold getActivities. rewrite (Array_sort_In activity_createdAt).
  destruct (given q) as [c|] eqn:G.
  - apply given_spec in G. destruct G as [-> Hc].
    rewrite filter_In, String.eqb_eq. split.
    + intros [Hin E]. split; [exact Hin|]. now intros c' [= <-] _.
    + intros [Hin H]. split; [exact Hin | now apply H].
  - apply given_none in G. split; [intros H; split; [exact H|] | tauto].
    intros c Hq Hc. destruct G as [G|G]; congruence.
Qed.

(** [getActivities] returns the stored activities, each as often as it is
    stored, restricted to those of the contact when a non-empty
    [contactId] is given, and sorted by [createdAt], latest first. *)
Theorem getActivities_spec (s : MemStorage) (q : optional string) :
  (exists keep : Activity -> bool,
     (forall a, keep a = true <->
                (forall c, q = Some c -> c <> EmptyString -> contactId a = c)) /\
     Permutation (getActivities s q)
                 (filter keep (Map_values (activities s)))) /\
  (forall a, In a (getActivities s q) <->
             In a (Map_values (activities s)) /\
             (forall c, q = Some c -> c <> EmptyString -> contactId a = c)) /\
  StronglySorted (fun a b => activity_createdAt a >= activity_createdAt b)
    (getActivities s q) /\
  Permutation (getActivities s None) (Map_values (activities s)).
Proof.
  split; [|split; [|split]].
  - unfold getActivities. destruct (given q) as [c|] eqn:G.
    + exists (fun activity => String.eqb (contactId activity) c).
      apply given_spec in G. destruct G as [-> Hc]. split.
      * intros a. rewrite String.eqb_eq. split.
        -- now intros E c' [= <-] _.
        -- intros H. now apply H.
      * apply Permutation_sym. apply (Array_sort_perm activity_createdAt).
    + exists (fun _ => true). apply given_none in G. split.
      * intros a. split; [|reflexivity]. intros _ c Hq Hc.
        destruct G as [G|G]; congruence.
      * rewrite filter_true. apply Permutation_sym.
        apply (Array_sort_perm activity_createdAt).
  - intros a. apply getActivities_In_iff.
  - unfold getActivities.
    generalize (Array_sort_sorted activity_createdAt
                  match given q with
                  | Some c => filter (fun activity => String.eqb (contactId activity) c)
                                (Map_values (activities s))
                  | None => Map_values (activities s)
                  end).
    apply StronglySorted_ind with
      (P := fun l => StronglySorted
                       (fun a b => activity_createdAt a >= activity_createdAt b) l).
    + constructor.
    + intros a l _ IH Hall. constructor; [exact IH|].
      eapply Forall_impl; [|exact Hall]. intros b Hb. simpl in Hb. lia.
  - apply Permutation_sym. apply (Array_sort_perm activity_createdAt).
Qed.

(** [createActivity] stores the activity whether or not its contact
    exists: the activity has the time of the call as [createdAt] and the
    [contactId] of the input, it is returned by [getActivities()] and by
    [getActivities] of its contact, and users and contacts are the same. *)
Theorem createActivity_roundtrip (aid : string) (now : Z) (data : InsertActivity)
    (s : MemStorage) :
  activity_createdAt (fst (createActivity aid now data s)) = now /\
  contactId (fst (createActivity aid now data s)) = ia_contactId data /\
  Map_get aid (activities (snd (createActivity aid now data s))) =
    Some (fst (createActivity aid now data s)) /\
  In (fst (createActivity aid now data s))
     (getActivities (snd (createActivity aid now data s)) None) /\
  In (fst (createActivity aid now data s))
     (getActivities (snd (createActivity aid now data s))
        (Some (ia_contactId data))) /\
  users (snd (createActivity aid now data s)) = users s /\
  contacts (snd (createActivity aid now data s)) = contacts s.
Proof.
  assert (Hget : Map_get aid (activities (snd (createActivity aid now data s))) =
                 Some (fst (createActivity aid now data s)))
    by apply Map_get_set_same.
  pose proof (Map_values_get _ _ _ Hget) as Hin.
  do 2 (split; [reflexivity|]). split; [exact Hget|].
  split; [|split; [|split; reflexivity]].
  - apply getActivities_In_iff. split; [exact Hin | discriminate].
  - apply getActivities_In_iff. split; [exact Hin|].
    now intros c [= <-] _.
Qed.

(** ** [getContacts]: case, ties, and the whole list *)

Lemma same_ignoring_case_empty (a b : string) :
  same_ignoring_case a b = true -> (a = EmptyString <-> b = EmptyString).
Proof. destruct a, b; simpl; split; congruence. Qed.

(** Two ASCII search strings that are the same but for the case of
    letters give the same list, whatever the stored text, on every engine
    that lower-cases ASCII text as specified. *)
Theorem getContacts_search_ignores_case {lc : Casing} (s : MemStorage)
    (q1 q2 : string) (co st : optional string) :
  lowers_ascii lc ->
  is_ascii q1 = true -> is_ascii q2 = true ->
  same_ignoring_case q1 q2 = true ->
  getContacts s (Some {| search := Some q1; f_company := co; f_status := st |}) =
  getContacts s (Some {| search := Some q2; f_company := co; f_status := st |}).
Proof.
  intros Hlc H1 H2 Hsame.
  assert (Hl : toLowerCase q1 = toLowerCase q2).
  { rewrite (Hlc q1 H1), (Hlc q2 H2). now apply same_ignoring_case_spec. }
  apply same_ignoring_case_empty in Hsame.
  unfold getContacts. cbn [chain search f_company f_status given].
  destruct q1 as [|a1 q1], q2 as [|a2 q2]; cbn [truthy].
  - reflexivity.
  - destruct Hsame as [Hs _]. discriminate (Hs eq_refl).
  - destruct Hsame as [_ Hs]. discriminate (Hs eq_refl).
  - now rewrite Hl.
Qed.

Lemma getContacts_search_ignores_case_witness :
  getContacts (lc := asciiCasing) Sample.s_two
    (Some {| search := Some "ACME"; f_company := None; f_status := None |}) =
  getContacts (lc := asciiCasing) Sample.s_two
    (Some {| search := Some "acme"; f_company := None; f_status := None |}).
Proof.
  apply (getContacts_search_ignores_case (lc := asciiCasing) Sample.s_two
           "ACME" "acme").
  - intros t _. reflexivity.
  - reflexivity.
  - reflexivity.
  - reflexivity.
Defined.

Section SortStable.
Context {A : Type} (key : A -> Z).

Lemma sort_insert_ties (t : Z) (x : A) (l : list A) :
  filter (fun a => key a =? t) (sort_insert (fun a b => key b - key a) x l) =
  filter (fun a => key a =? t) (x :: l).
Proof.
  induction l as [|y l IH]; [reflexivity|].
  cbn [sort_insert]. destruct (0 <? key y - key x) eqn:E; [|reflexivity].
  apply Z.ltb_lt in E. cbn [filter] in *. rewrite IH.
  destruct (key x =? t) eqn:Ex; [|reflexivity].
  apply Z.eqb_eq in Ex.
  assert (Ey : (key y =? t) = false) by (apply Z.eqb_neq; lia).
  now rewrite Ey.
Qed.

(** The sort keeps elements of equal key in the order they had. *)
Lemma Array_sort_ties (t : Z) (l : list A) :
  filter (fun a => key a =? t) (Array_sort (fun a b => key b - key a) l) =
  filter (fun a => key a =? t) l.
Proof.
  induction l as [|x l IH]; [reflexivity|].
  cbn [Array_sort fold_right]. rewrite sort_insert_ties.
  cbn [filter]. unfold Array_sort in IH. now rewrite IH.
Qed.

End SortStable.

(** Contacts with the same [updatedAt] come out of [getContacts] in the
    order in which they were first stored. *)
Theorem getContacts_ties_in_insertion_order {lc : Casing} (s : MemStorage)
    (f : optional ContactFilters) (t : Z) :
  filter (fun c => updatedAt c =? t) (getContacts s None) =
    filter (fun c => updatedAt c =? t) (Map_values (contacts s)) /\
  exists keep : Contact -> bool,
    (forall c, keep c = true <-> satisfies f c) /\
    filter (fun c => updatedAt c =? t) (getContacts s f) =
    filter (fun c => updatedAt c =? t) (filter keep (Map_values (contacts s))).
Proof.
  split.
  - unfold getContacts. cbn [chain given].
    apply (Array_sort_ties updatedAt).
  - exists (keeps f). split; [apply keeps_spec|].
    rewrite getContacts_keeps. apply (Array_sort_ties updatedAt).
Qed.

(** Without filters [getContacts] lists every stored contact once per
    entry: as many as [totalContacts], every contact that [getContact]
    finds, and every contact that a filtered call returns. *)
Theorem getContacts_all {lc : Casing} (s : MemStorage) :
  Permutation (getContacts s None) (Map_values (contacts s)) /\
  (forall tz t, len (getContacts s None) = totalContacts (getMetrics tz t s)) /\
  (forall k c, getContact s k = Some c -> In c (getContacts s None)) /\
  (forall f c, In c (getContacts s f) -> In c (getContacts s None)) /\
  (forall f, len (getContacts s f) <= len (getContacts s None)).
Proof.
  assert (HP : Permutation (getContacts s None) (Map_values (contacts s))).
  { apply Permutation_sym. apply (Array_sort_perm updatedAt). }
  assert (HL : len (getContacts s None) = len (Map_values (contacts s))).
  { unfold len. now rewrite (Permutation_length HP). }
  split; [exact HP|]. split; [intros; exact HL|]. split; [|split].
  - intros k c Hget. apply (Permutation_in _ (Permutation_sym HP)).
    exact (Map_values_get _ _ _ Hget).
  - intros f c Hin. apply (Permutation_in _ (Permutation_sym HP)).
    rewrite getContacts_keeps in Hin.
    apply (proj1 (Array_sort_In updatedAt _ _)) in Hin.
    now apply filter_In in Hin.
  - intros f. rewrite HL, getContacts_keeps. unfold len.
    rewrite <- (Permutation_length (Array_sort_perm updatedAt _)).
    apply inj_le. apply filter_length_le.
Qed.

(** ** [getMetrics]: bounds *)

Lemma filter_disjoint_length {A} (f g : A -> bool) (l : list A) :
  (forall x, f x = true -> g x = false) ->
  (List.length (filter f l) + List.length (filter g l) <= List.length l)%nat.
Proof.
  intros H. induction l as [|x l IH]; simpl; [lia|].
  destruct (f x) eqn:E.
  - rewrite (H x E). simpl. lia.
  - destruct (g x); simpl; lia.
Qed.

(** The leads (status "prospect") and the contacts of status "active"
    together are at most [totalContacts], and [todayActivities] is at most
    the number of stored activities; no count is negative. *)
Theorem getMetrics_bounds (tz : Zone) (now : Z) (s : MemStorage) :
  0 <= activeLeads (getMetrics tz now s) /\
  0 <= count_status "active" s /\
  activeLeads (getMetrics tz now s) + count_status "active" s <=
    totalContacts (getMetrics tz now s) /\
  0 <= todayActivities (getMetrics tz now s) <= len (Map_values (activities s)).
Proof.
  cbn [activeLeads totalContacts todayActivities getMetrics]. unfold count_status.
  split; [apply len_nonneg|]. split; [apply len_nonneg|]. split.
  - unfold len. rewrite <- Nat2Z.inj_add. apply inj_le.
    apply filter_disjoint_length. intros c Hc. unfold has_status in *.
    apply strict_eq_spec in Hc. rewrite Hc. reflexivity.
  - split; [apply len_nonneg|]. unfold len. apply inj_le. apply filter_length_le.
Qed.

(** An activity created under a fresh id counts in [todayActivities] of
    the same instant, whenever that instant lies in its own local day. *)
Theorem todayActivities_counts_now (tz : Zone) (now : Z) (aid : string)
    (data : InsertActivity) (s : MemStorage) :
  setHours0 tz now <= now < addOneDay tz (setHours0 tz now) ->
  Map_has aid (activities s) = false ->
  todayActivities (getMetrics tz now (snd (createActivity aid now data s))) =
  todayActivities (getMetrics tz now s) + 1.
Proof.
  intros [H1 H2] Hfresh. rewrite todayActivities_createActivity by exact Hfresh.
  apply Z.leb_le in H1. apply Z.ltb_lt in H2. now rewrite H1, H2.
Qed.

Lemma todayActivities_counts_now_witness :
  todayActivities
    (getMetrics (fixedZone 3600000) 90000000
       (snd (createActivity "a9" 90000000 (Sample.newActivity "c1" "now")
               Sample.s_acts))) =
  todayActivities (getMetrics (fixedZone 3600000) 90000000 Sample.s_acts) + 1.
Proof.
  apply (todayActivities_counts_now (fixedZone 3600000) 90000000 "a9").
  - vm_compute. split; [discriminate | reflexivity].
  - reflexivity.
Defined.

(** * Properties of the API adapter *)

Section AdapterFacts.
Import Routes.
Context {Raw Issues : Type}.
Variable parseContact : Raw -> Issues + InsertContact.
Variable parseContactUpdate : Raw -> Issues + ContactUpdate.
Variable parseActivity : Raw -> Issues + InsertActivity.

(** [DELETE /api/contacts/:id] answers 200 exactly when
    [GET /api/contacts/:id] answered 200 before it, and 404 otherwise;
    after it the GET answers 404, and a second DELETE answers 404 and
    changes nothing. *)
Theorem delete_contact_responses (cid : string) (s : MemStorage) :
  code (fst (@delete_contact Issues cid s)) = code (@get_contact Issues cid s) /\
  (code (@get_contact Issues cid s) = 200 \/
   code (@get_contact Issues cid s) = 404) /\
  code (@get_contact Issues cid (snd (@delete_contact Issues cid s))) = 404 /\
  code (fst (@delete_contact Issues cid (snd (@delete_contact Issues cid s)))) = 404 /\
  snd (@delete_contact Issues cid (snd (@delete_contact Issues cid s))) =
    snd (@delete_contact Issues cid s).
Proof.
  assert (Hs : snd (@delete_contact Issues cid s) = snd (deleteContact cid s)).
  { unfold delete_contact. rewrite deleteContact_eq.
    now destruct (Map_has cid (contacts s)). }
  assert (Hd : forall s0, @delete_contact Issues cid (snd (deleteContact cid s0)) =
                 ({| code := 404; body := JMessage "Contact not found" |},
                  snd (deleteContact cid s0))).
  { intros s0. unfold delete_contact at 1.
    rewrite (deleteContact_eq cid (snd (deleteContact cid s0))).
    rewrite (deleteContact_eq cid s0). cbn [snd users contacts activities].
    rewrite Map_has_remove_same.
    rewrite (Map_remove_absent _ _ (Map_has_remove_same cid (contacts s0))).
    rewrite cascade_none; [reflexivity|].
    intros a Ha. exact (cascade_clears _ _ _ Ha). }
  split; [|split; [|split; [|split]]].
  - unfold delete_contact, get_contact, getContact. rewrite deleteContact_eq.
    destruct (Map_has cid (contacts s)) eqn:E.
    + apply Map_has_get in E.
      destruct (Map_get cid (contacts s)); [reflexivity | contradiction].
    + apply Map_has_false_get in E. now rewrite E.
  - unfold get_contact. destruct (getContact s cid); [left | right]; reflexivity.
  - rewrite Hs. unfold get_contact, getContact. rewrite deleteContact_eq.
    cbn [snd contacts]. now rewrite Map_get_remove_same.
  - rewrite Hs, Hd. reflexivity.
  - rewrite Hs, Hd. reflexivity.
Qed.

(** [POST /api/contacts]: a body that the schema rejects is answered 400
    and nothing is stored; a valid one is answered 201 with the created
    contact, which [GET /api/contacts/:id] then returns under its id. *)
Theorem post_contact_responses (cid : string) (now : Z) (raw : Raw)
    (s : MemStorage) :
  match parseContact raw with
  | inl errors =>
      post_contact parseContact cid now raw s =
      ({| code := 400; body := JInvalid "Invalid contact data" errors |}, s)
  | inr data =>
      code (fst (post_contact parseContact cid now raw s)) = 201 /\
      body (fst (post_contact parseContact cid now raw s)) =
        JContact (fst (createContact cid now data s)) /\
      id (fst (createContact cid now data s)) = cid /\
      @get_contact Issues cid (snd (post_contact parseContact cid now raw s)) =
        {| code := 200; body := JContact (fst (createContact cid now data s)) |}
  end.
Proof.
  unfold post_contact. destruct (parseContact raw) as [errors|data].
  - reflexivity.
  - cbn [createContact fst snd code body id]. repeat split.
    unfold get_contact, getContact. cbn [contacts].
    now rewrite Map_get_set_same.
Qed.

(** [PUT /api/contacts/:id] validates before it looks the contact up: a
    body that the schema rejects is answered 400 even for an id that does
    not exist. A valid body is answered 200 when the id exists and 404
    when it does not, and any answer other than 200 leaves the repository
    as it was. *)
Theorem put_contact_responses (now : Z) (cid : string) (raw : Raw)
    (s : MemStorage) :
  match parseContactUpdate raw with
  | inl errors =>
      put_contact parseContactUpdate now cid raw s =
      ({| code := 400; body := JInvalid "Invalid contact data" errors |}, s)
  | inr data =>
      match getContact s cid with
      | Some _ =>
          code (fst (put_contact parseContactUpdate now cid raw s)) = 200 /\
          exists updated,
            body (fst (put_contact parseContactUpdate now cid raw s)) =
              JContact updated /\
            getContact (snd (put_contact parseContactUpdate now cid raw s)) cid =
              Some updated
      | None =>
          put_contact parseContactUpdate now cid raw s =
          ({| code := 404; body := JMessage "Contact not found" |}, s)
      end
  end.
Proof.
  unfold put_contact, updateContact, getContact.
  destruct (parseContactUpdate raw) as [errors|data]; [reflexivity|].
  destruct (Map_get cid (contacts s)) as [existing|]; [|reflexivity].
  cbn [fst snd code body contacts]. split; [reflexivity|].
  eexists. split; [reflexivity | apply Map_get_set_same].
Qed.

(** [POST /api/activities] does not look the contact up: every valid
    body is answered 201, and the activity is listed by
    [GET /api/activities], also when no contact has its [contactId]; a
    rejected body is answered 400 and nothing is stored. *)
Theorem post_activity_responses (aid : string) (now : Z) (raw : Raw)
    (s : MemStorage) :
  match parseActivity raw with
  | inl errors =>
      post_activity parseActivity aid now raw s =
      ({| code := 400; body := JInvalid "Invalid activity data" errors |}, s)
  | inr data =>
      code (fst (post_activity parseActivity aid now raw s)) = 201 /\
      exists activity listed,
        body (fst (post_activity parseActivity aid now raw s)) =
          JActivity activity /\
        contactId activity = ia_contactId data /\
        @get_activities Issues None (snd (post_activity parseActivity aid now raw s)) =
          {| code := 200; body := JActivities listed |} /\
        In activity listed
  end.
Proof.
  unfold post_activity. destruct (parseActivity raw) as [errors|data].
  - reflexivity.
  - cbn [createActivity fst snd code body]. split; [reflexivity|].
    eexists. eexists. split; [reflexivity|]. split; [reflexivity|].
    unfold get_activities. split; [reflexivity|].
    apply getActivities_In_iff. split; [|discriminate].
    cbn [activities]. apply (Map_values_get aid). apply Map_get_set_same.
Qed.

End AdapterFacts.

(** Sample requests: a rejected body is a 400 also for an id that does not
    exist, a valid update of a missing id is a 404, and deleting the id
    that no contact has is a 404 that removes the activity referring to
    it. *)
Example adapter_sample_requests :
  Routes.code (fst (Routes.put_contact SampleRoutes.parseBody 5000 "nobody" None Sample.s_acts)) = 400 /\
  Routes.code (fst (Routes.put_contact SampleRoutes.parseBody 5000 "nobody"
               (Some (SampleRoutes.rename "Zed")) Sample.s_acts)) = 404 /\
  Routes.code (fst (Routes.put_contact SampleRoutes.parseBody 5000 "c1"
               (Some (SampleRoutes.rename "Zed")) Sample.s_acts)) = 200 /\
  Routes.code (fst (@Routes.delete_contact string "ghost" Sample.s_acts)) = 404 /\
  len (Map_values (activities (snd (@Routes.delete_contact string "ghost" Sample.s_acts)))) = 2 /\
  len (Map_values (activities Sample.s_acts)) = 3.
Proof. repeat split. Qed.

(** ** The conversion rate, up to 100 contacts *)

Lemma same_number_eq (x y : number) : same_number x y = true -> x = y.
Proof.
  destruct x as [a|a| |a m e], y as [b|b| |b n f]; simpl; try discriminate.
  - intros H. apply Bool.eqb_prop in H. now subst.
  - intros H. apply Bool.eqb_prop in H. now subst.
  - reflexivity.
  - rewrite !andb_true_iff. intros [[H1 H2] H3].
    apply Bool.eqb_prop in H1. apply Pos.eqb_eq in H2. apply Z.eqb_eq in H3.
    now subst.
Qed.

Lemma rates_have_tenths_100 : rates_have_tenths 100 = true.
Proof. vm_compute. reflexivity. Qed.

Lemma rates_have_tenths_spec (n active total : nat) :
  rates_have_tenths n = true ->
  (1 <= total <= n)%nat -> (active <= total)%nat ->
  exists k, rate_tenths (Z.of_nat active) (Z.of_nat total) = Some k.
Proof.
  intros H Ht Ha.
  unfold rates_have_tenths in H. rewrite forallb_forall in H.
  specialize (H total). rewrite forallb_forall in H.
  specialize (H ltac:(apply in_seq; lia) active ltac:(apply in_seq; lia)).
  destruct (rate_tenths _ _) as [k|]; [now exists k | discriminate].
Qed.

Lemma rate_tenths_upto_100 (active total : nat) :
  (1 <= total <= 100)%nat -> (active <= total)%nat ->
  exists k, rate_tenths (Z.of_nat active) (Z.of_nat total) = Some k.
Proof. exact (rates_have_tenths_spec 100 active total rates_have_tenths_100). Qed.

(** In a repository of 1 to 100 contacts, [conversionRate] is the number
    [k / 10] for an integer [k] from 0 to 1000 that is within one half of
    the exact [1000 * active / total]: the percentage of active contacts,
    to the nearest tenth. *)
Theorem conversionRate_nearest_tenth (tz : Zone) (now : Z) (s : MemStorage) :
  1 <= totalContacts (getMetrics tz now s) <= 100 ->
  exists k,
    conversionRate (getMetrics tz now s) = decimal1 k /\
    0 <= k <= 1000 /\
    Z.abs (2000 * count_status "active" s -
           2 * k * totalContacts (getMetrics tz now s))
      <= totalContacts (getMetrics tz now s).
Proof.
  rewrite getMetrics_rate. cbn [totalContacts getMetrics]. unfold count_status, len.
  set (cs := Map_values (contacts s)). intros Ht.
  destruct (rate_tenths_upto_100 (List.length (filter (has_status "active") cs))
              (List.length cs)) as [k Hk]; [lia | apply filter_length_le |].
  exists k. unfold rate_tenths in Hk.
  destruct (to_Z _) as [k'|]; [|discriminate].
  destruct (_ && _)%bool eqn:E; [|discriminate]. injection Hk as ->.
  rewrite !andb_true_iff in E. destruct E as [[[E1 E2] E3] E4].
  apply Z.leb_le in E1, E2, E3. apply same_number_eq in E4.
  split; [exact E4|]. split; [lia | exact E3].
Qed.

Lemma conversionRate_nearest_tenth_witness :
  exists k,
    conversionRate (getMetrics utc 0 Sample.s_80) = decimal1 k /\
    0 <= k <= 1000 /\
    Z.abs (2000 * count_status "active" Sample.s_80 -
           2 * k * totalContacts (getMetrics utc 0 Sample.s_80))
      <= totalContacts (getMetrics utc 0 Sample.s_80).
Proof.
  apply (conversionRate_nearest_tenth utc 0 Sample.s_80).
  vm_compute. split; discriminate.
Defined.
